(** * Search query compilation, paginated fetching and error translation

    A shallow embedding of [pkg/cmd/search/shared/searcher.go] together with
    the data types of [pkg/search] it operates on.

    Go strings are byte strings ([string]); Go [int] values are modelled as
    [Z] (every subtraction performed by the code stays inside the 64-bit
    range, see [Repositories_loop]); Go maps are [gmap]s whose [range] order
    is chosen by the runtime; slices are views into arrays that live in a
    store, so that writes through a slice are visible to every alias. *)

From Stdlib Require Import ZArith Ascii String List Lia Bool.
From Stdlib Require Import Numbers.DecimalString.
From Stdlib Require Numbers.DecimalPos.
From stdpp Require Import base option list gmap strings sorting.

Local Open Scope Z_scope.

(** ** Bytes and byte strings *)

Module Bytes.

Definition dquote : ascii := "034"%char.
Definition backslash : ascii := "092"%char.
Definition colon : ascii := ":"%char.
Definition tab : ascii := "009"%char.
Definition lf : ascii := "010"%char.
Definition cr : ascii := "013"%char.
Definition space : ascii := " "%char.

Definition str1 (c : ascii) : string := String c EmptyString.

Fixpoint mem (c : ascii) (cs : list ascii) : bool :=
  match cs with
  | [] => false
  | d :: cs' => if Ascii.eqb c d then true else mem c cs'
  end.

(** [strings.ContainsAny(s, chars)] for single-byte [chars]. *)
Fixpoint ContainsAny (s : string) (chars : list ascii) : bool :=
  match s with
  | EmptyString => false
  | String c s' => if mem c chars then true else ContainsAny s' chars
  end.

(** [strings.Contains(s, sep)] for a one-byte separator. *)
Fixpoint ContainsByte (s : string) (c : ascii) : bool :=
  match s with
  | EmptyString => false
  | String d s' => if Ascii.eqb d c then true else ContainsByte s' c
  end.

(** [strings.SplitN(s, sep, 2)] for a one-byte separator occurring in [s]:
    the part before the first occurrence and the part after it.  When the
    separator does not occur the whole string is the first component and
    there is no second one. *)
Fixpoint SplitN2 (s : string) (sep : ascii) : string * option string :=
  match s with
  | EmptyString => (EmptyString, None)
  | String d s' =>
      if Ascii.eqb d sep then (EmptyString, Some s')
      else let '(a, b) := SplitN2 s' sep in (String d a, b)
  end.

(** [strings.Join(elems, sep)]. *)
Fixpoint Join (elems : list string) (sep : string) : string :=
  match elems with
  | [] => EmptyString
  | [e] => e
  | e :: rest => e +:+ sep +:+ Join rest sep
  end.

(** [strconv.Itoa]. *)
Definition Itoa (n : Z) : string := NilZero.string_of_int (Z.to_int n).

Definition is_digit (c : ascii) : bool :=
  let n := nat_of_ascii c in (48 <=? n)%nat && (n <=? 57)%nat.

Definition digit_val (c : ascii) : Z := Z.of_nat (nat_of_ascii c) - 48.

(** Go's [unicode.IsSpace] restricted to one-byte characters, as used by
    [strings.TrimSpace] on ASCII input. *)
Definition is_space (c : ascii) : bool :=
  mem c ["009"; "010"; "011"; "012"; "013"; " "]%char.

Fixpoint trim_left (s : string) : string :=
  match s with
  | EmptyString => EmptyString
  | String c s' => if is_space c then trim_left s' else s
  end.

Fixpoint trim_right (s : string) : string :=
  match s with
  | EmptyString => EmptyString
  | String c s' =>
      match trim_right s' with
      | EmptyString => if is_space c then EmptyString else str1 c
      | t => String c t
      end
  end.

(** [strings.TrimSpace]. *)
Definition TrimSpace (s : string) : string := trim_right (trim_left s).



End Bytes.

(** ** [strconv.Quote], the implementation of the [%q] verb

    The escaping of one-byte characters follows [strconv.appendEscapedRune]:
    the quote and the backslash get a backslash, printable ASCII is copied,
    the seven C escapes are named and every other control byte becomes
    [\xNN] in lower-case hexadecimal.  Bytes above 127 are copied: the model
    covers text whose multi-byte runes are valid and printable. *)

Module strconv.
Import Bytes.

Definition lowerhex (n : nat) : ascii :=
  nth n (list_ascii_of_string "0123456789abcdef") "0"%char.

Definition escape_byte (c : ascii) : string :=
  let n := nat_of_ascii c in
  if Ascii.eqb c dquote then String backslash (str1 dquote)
  else if Ascii.eqb c backslash then String backslash (str1 backslash)
  else if (32 <=? n)%nat && negb (n =? 127)%nat then str1 c
  else if (n =? 7)%nat then String backslash "a"
  else if (n =? 8)%nat then String backslash "b"
  else if (n =? 12)%nat then String backslash "f"
  else if (n =? 10)%nat then String backslash "n"
  else if (n =? 13)%nat then String backslash "r"
  else if (n =? 9)%nat then String backslash "t"
  else if (n =? 11)%nat then String backslash "v"
  else String backslash
         (String "x" (String (lowerhex (n / 16)) (str1 (lowerhex (n mod 16))))).

Fixpoint escape (s : string) : string :=
  match s with
  | EmptyString => EmptyString
  | String c s' => escape_byte c +:+ escape s'
  end.

Definition Quote (s : string) : string :=
  String dquote (escape s +:+ str1 dquote).

(** [strconv.Atoi] on unsigned input (the expression that feeds it
    yields digits only): the empty string and any byte that is not a
    decimal digit are syntax errors, a value above the largest [int] is
    a range error. *)
Definition max_int : Z := 9223372036854775807.

Fixpoint all_digits (s : string) : bool :=
  match s with
  | EmptyString => true
  | String c s' => is_digit c && all_digits s'
  end.

Fixpoint digits_value (acc : Z) (s : string) : Z :=
  match s with
  | EmptyString => acc
  | String c s' => digits_value (10 * acc + digit_val c) s'
  end.

Definition Atoi (s : string) : option Z :=
  match s with
  | EmptyString => None
  | _ => if all_digits s then
           let v := digits_value 0 s in
           if v <=? max_int then Some v else None
         else None
  end.

End strconv.

(** ** Quoting of keywords and qualifier values *)

Definition quoteChars : list ascii :=
  [Bytes.space; Bytes.dquote; Bytes.tab; Bytes.cr; Bytes.lf].

Definition quoteKeyword (k : string) : string :=
  if Bytes.ContainsAny k quoteChars then
    if Bytes.ContainsByte k Bytes.colon then
      match Bytes.SplitN2 k Bytes.colon with
      | (z0, Some z1) => z0 +:+ ":" +:+ strconv.Quote z1
      | (_, None) => strconv.Quote k
      end
    else strconv.Quote k
  else k.

Definition quoteQualifier (q : string) : string :=
  if Bytes.ContainsAny q quoteChars then strconv.Quote q else q.


(** ** [net/url]: query values and request URLs *)

Module url.
Import Bytes.

(** [url.Values] as the code uses it: every key holds one value, written
    with [Set] and read with [Get] (the empty string when absent). *)
Definition Set_ (v : gmap string string) (k x : string) : gmap string string :=
  <[k := x]> v.

Definition Get (v : gmap string string) (k : string) : string :=
  default EmptyString (v !! k).

Definition upperhex (n : nat) : ascii :=
  nth n (list_ascii_of_string "0123456789ABCDEF") "0"%char.

Definition is_alnum (c : ascii) : bool :=
  let n := nat_of_ascii c in
  ((48 <=? n) && (n <=? 57) || (65 <=? n) && (n <=? 90)
   || (97 <=? n) && (n <=? 122))%nat.

(** [shouldEscape(c, encodeQueryComponent)]. *)
Definition shouldEscape (c : ascii) : bool :=
  negb (is_alnum c || mem c ["-"; "_"; "."; "~"]%char).

Fixpoint QueryEscape (s : string) : string :=
  match s with
  | EmptyString => EmptyString
  | String c s' =>
      let n := nat_of_ascii c in
      (if Ascii.eqb c space then "+"
       else if shouldEscape c
            then String "%" (String (upperhex (n / 16)) (str1 (upperhex (n mod 16))))
            else str1 c) +:+ QueryEscape s'
  end.

Fixpoint insert_sorted (k : string) (ks : list string) : list string :=
  match ks with
  | [] => [k]
  | k' :: rest =>
      if String.leb k k' then k :: ks else k' :: insert_sorted k rest
  end.

Definition sorted_keys (v : gmap string string) : list string :=
  foldr insert_sorted [] (fst <$> map_to_list v).

(** [Values.Encode]: [key=value] pairs joined by [&], sorted by key. *)
Definition Encode (v : gmap string string) : string :=
  Join ((fun k => QueryEscape k +:+ "=" +:+ QueryEscape (Get v k))
          <$> sorted_keys v) "&".

(** A parsed request URL: everything before the [?] and the query
    values.  [url.Parse] of [Path ? Encode v] yields these parts. *)
Record URL := { Path : string; Query : gmap string string }.

Definition String_ (u : URL) : string := Path u +:+ "?" +:+ Encode (Query u).

End url.

(** ** [pkg/search]: queries and results *)

Module search.

(** The observable behaviour of a [Qualifier] (and of a [Parameter],
    which is the same interface): whether it was set, its key and its
    rendering. *)
Record Qualifier := {
  IsSet : bool;
  Key : string;
  String_ : string
}.

(** A slice of strings: a window of [s_len] cells starting at index
    [s_off] of the array [s_arr] of the store. *)
Record slice := { s_arr : positive; s_off : nat; s_len : nat }.

Record Query := {
  Keywords : slice;
  Kind : string;
  Limit : Z;
  Order : Qualifier;
  Page : Z;
  Qualifiers : gmap string Qualifier;
  Sort : Qualifier
}.

(** Items are passed through untouched; two of the decoded fields stand
    for the whole record. *)
Record Repository := { ID : Z; FullName : string }.

Record RepositoriesResult := {
  IncompleteResults : bool;
  Items : list Repository;
  Total : Z
}.

Definition empty_result : RepositoriesResult :=
  {| IncompleteResults := false; Items := []; Total := 0 |}.

End search.

(** ** Errors and HTTP exchanges *)

Record httpErrorItem := {
  item_Code : string;
  item_Field : string;
  item_Message : string;
  item_Resource : string
}.

Record httpError := {
  Errors : list httpErrorItem;
  Message : string;
  RequestURL : url.URL;
  StatusCode : Z
}.

(** The values of Go's [error] interface that the package produces or
    passes on. *)
Inductive error :=
| RequestError (msg : string)      (* http.NewRequest rejects the URL *)
| TransportError (msg : string)    (* client.Do fails *)
| ReadError (msg : string)         (* io.ReadAll fails *)
| DecodeError (msg : string)       (* encoding/json fails *)
| HTTPError (e : httpError).

(** The result of a call that may panic instead of returning. *)
Inductive outcome (A : Type) :=
| Returns (a : A)
| Panics (msg : string).
Arguments Returns {A} a.
Arguments Panics {A} msg.

Module http.

(** A JSON object as far as the two decoders look at it: the keys of a
    result page and the keys of the provider's error document.  Absent
    keys leave the target's zero value in place. *)
Record JSONObject := {
  j_items : option (list search.Repository);
  j_total_count : option Z;
  j_incomplete_results : option bool;
  j_message : option string;
  j_errors : option (list httpErrorItem)
}.

Inductive Body :=
| Unreadable (msg : string)      (* the stream fails while it is read *)
| NotJSON (msg : string)         (* bytes that no decoder accepts *)
| Object (o : JSONObject).

Record Request := {
  Method : string;
  URL : url.URL;
  ReqHeader : gmap string string
}.

(** What the server sends back. *)
Record Reply := {
  r_StatusCode : Z;
  r_Status : string;
  r_Header : gmap string string;
  r_Body : Body
}.

(** [http.Response]: the reply together with the request it answers. *)
Record Response := {
  Reply_ : Reply;
  Request_ : Request
}.

Definition StatusCode (r : Response) : Z := r_StatusCode (Reply_ r).
Definition Status (r : Response) : string := r_Status (Reply_ r).
Definition Header_Get (r : Response) (k : string) : string :=
  default EmptyString (r_Header (Reply_ r) !! k).
Definition Body_ (r : Response) : Body := r_Body (Reply_ r).

(** The same exchange with another body on the wire. *)
Definition with_body (r : Response) (b : Body) : Response :=
  {| Reply_ := {| r_StatusCode := StatusCode r; r_Status := Status r;
                  r_Header := r_Header (Reply_ r); r_Body := b |};
     Request_ := Request_ r |}.

(** An HTTP client talking to one server: given the requests sent so far
    (latest first) and the current one, it fails or yields a reply. *)
Definition Client : Type := list Request -> Request -> error + Reply.

End http.

(** ** The three regular expressions

    Each matcher is the leftmost-first semantics of its expression written
    out; the character classes exclude the byte that follows them, so the
    match at a given start is unique. *)

Module regexp.
Import Bytes.

(** The longest prefix of bytes satisfying [p], and what follows it. *)
Fixpoint span (p : ascii -> bool) (s : string) : string * string :=
  match s with
  | EmptyString => (EmptyString, EmptyString)
  | String c s' =>
      if p c then let '(a, b) := span p s' in (String c a, b)
      else (EmptyString, s)
  end.

Fixpoint strip_prefix (p s : string) : option string :=
  match p, s with
  | EmptyString, _ => Some s
  | String a p', String b s' =>
      if Ascii.eqb a b then strip_prefix p' s' else None
  | String _ _, EmptyString => None
  end.

(** The class [\s] of RE2: tab, line feed, form feed, carriage return
    and space. *)
Definition re_space (c : ascii) : bool :=
  mem c ["009"; "010"; "012"; "013"; " "]%char.

Definition rel_eq : string := "rel=" +:+ str1 dquote.

(** [linkRE] anchored at the start of [s]: an opening angle bracket, one
    or more bytes other than the closing bracket (group 1), the closing
    bracket and a semicolon, any run of [\s], the text [rel=] and a
    quoted non-empty run of bytes other than the quote (group 2).  The
    result holds the two groups and the length of the match. *)
Definition linkRE_at (s : string) : option (string * string * nat) :=
  match s with
  | String "<" s1 =>
      let '(u, s2) := span (fun c => negb (Ascii.eqb c ">")) s1 in
      match u, strip_prefix ">;" s2 with
      | String _ _, Some s3 =>
          let '(ws, s4) := span re_space s3 in
          match strip_prefix rel_eq s4 with
          | Some s5 =>
              let '(r, s6) := span (fun c => negb (Ascii.eqb c dquote)) s5 in
              match r, s6 with
              | String _ _, String _ _ =>
                  Some (u, r, (String.length u + String.length ws
                               + String.length r + 9)%nat)
              | _, _ => None
              end
          | None => None
          end
      | _, _ => None
      end
  | _ => None
  end.

(** [linkRE.FindAllStringSubmatch(s, -1)]: the groups of the successive
    non-overlapping matches.  [skip] counts the bytes of the last match
    that are still to be passed over. *)
Fixpoint linkRE_from (skip : nat) (s : string) : list (string * string) :=
  match s with
  | EmptyString => []
  | String _ s' =>
      match skip with
      | S k => linkRE_from k s'
      | O =>
          match linkRE_at s with
          | Some (u, r, len) => (u, r) :: linkRE_from (len - 1) s'
          | None => linkRE_from 0 s'
          end
      end
  end.

Definition linkRE_FindAll (s : string) : list (string * string) :=
  linkRE_from 0 s.

(** [pageRE]: a question mark or an ampersand, the text [page=] and the
    longest run of decimal digits, possibly empty.  [FindStringSubmatch]
    returns the leftmost match; the result is its group of digits. *)
Fixpoint pageRE_Find (s : string) : option string :=
  match s with
  | EmptyString => None
  | String c s' =>
      match (if Ascii.eqb c "?" || Ascii.eqb c "&"
             then strip_prefix "page=" s' else None) with
      | Some rest => Some (fst (span is_digit rest))
      | None => pageRE_Find s'
      end
  end.

Definition json_tail (s : string) : bool :=
  match strip_prefix "json" s with
  | Some EmptyString => true
  | Some (String c _) => Ascii.eqb c ";"
  | None => false
  end.

(** [jsonTypeRE.MatchString]: a slash or a plus sign, the text [json],
    and then the end of the text or a semicolon. *)
Fixpoint jsonTypeRE_Match (s : string) : bool :=
  match s with
  | EmptyString => false
  | String c s' =>
      ((Ascii.eqb c "/" || Ascii.eqb c "+") && json_tail s')
      || jsonTypeRE_Match s'
  end.

End regexp.


(** ** Program state

    The store holds the arrays behind slices of strings, the number of map
    iterations started so far (the runtime picks the order of each one) and
    the requests sent over the network. *)

Record State := {
  heap : gmap positive (list string);
  ranges : nat;
  sent : list http.Request
}.

Definition M (A : Type) : Type := State -> A * State.

Global Instance M_ret : MRet M := fun A a σ => (a, σ).

Global Instance M_bind : MBind M :=
  fun A B k m σ => let (a, σ') := m σ in k a σ'.

Definition ret {A} (a : A) : M A := mret a.

Module Slice.
Import search.

Definition array (h : gmap positive (list string)) (a : positive) : list string :=
  default [] (h !! a).

(** [ks[i]] *)
Definition index (ks : slice) (i : nat) : M string :=
  fun σ => (default EmptyString (array (heap σ) (s_arr ks) !! (s_off ks + i)%nat), σ).

(** [ks[i] = v] *)
Definition assign (ks : slice) (i : nat) (v : string) : M unit :=
  fun σ => (tt, {| heap := alter (<[(s_off ks + i)%nat := v]>) (s_arr ks) (heap σ);
                   ranges := ranges σ; sent := sent σ |}).

(** The elements visible through [ks]. *)
Definition elems (h : gmap positive (list string)) (ks : slice) : list string :=
  take (s_len ks) (drop (s_off ks) (array h (s_arr ks))).

Definition read (ks : slice) : M (list string) :=
  fun σ => (elems (heap σ) ks, σ).

(** The window of [ks] lies inside its array. *)
Definition wf (h : gmap positive (list string)) (ks : slice) : Prop :=
  (s_off ks + s_len ks <= length (array h (s_arr ks)))%nat.

End Slice.

(** [for i := range n { body i }] *)
Fixpoint for_range (idx : list nat) (body : nat -> M unit) : M unit :=
  match idx with
  | [] => ret tt
  | i :: rest => _ ← body i ; for_range rest body
  end.

Definition maxPerPage : Z := 100.

Definition min (a b : Z) : Z := if a <? b then a else b.

Definition nextPage (resp : option http.Response) : Z :=
  match resp with
  | None => 1
  | Some r =>
      foldl (fun page m =>
               if String.eqb (snd m) "next" then
                 match regexp.pageRE_Find (fst m) with
                 | Some digits =>
                     match strconv.Atoi digits with
                     | Some i => i
                     | None => page
                     end
                 | None => page
                 end
               else page)
            0 (regexp.linkRE_FindAll (http.Header_Get r "Link"))
  end.

Definition quoteKeywords (ks : search.slice) : M search.slice :=
  _ ← for_range (seq 0 (search.s_len ks))
        (fun i => k ← Slice.index ks i ; Slice.assign ks i (quoteKeyword k)) ;
  ret ks.

(** The array after the loop of [quoteKeywords] has visited [idx]. *)
Definition quoted_at (off : nat) (idx : list nat) (a : list string) : list string :=
  foldl (fun a i => <[(off + i)%nat := quoteKeyword (default EmptyString (a !! (off + i)%nat))]> a)
        a idx.

Definition httpError_Error (err : httpError) : outcome string :=
  if negb (StatusCode err =? 422) then
    Returns ("HTTP " +:+ Bytes.Itoa (StatusCode err) +:+ ": " +:+ Message err
             +:+ " (" +:+ url.String_ (RequestURL err) +:+ ")")
  else
    let query := Bytes.TrimSpace (url.Get (url.Query (RequestURL err)) "q") in
    match Errors err with
    | [] => Panics "index out of range [0] with length 0"
    | e :: _ =>
        Returns ("Invalid search query " +:+ strconv.Quote query +:+ "."
                 +:+ Bytes.str1 Bytes.lf +:+ item_Message e)
    end.

Definition handleHTTPError (resp : http.Response) : error :=
  let requestURL := http.URL (http.Request_ resp) in
  let statusCode := http.StatusCode resp in
  if negb (regexp.jsonTypeRE_Match (http.Header_Get resp "Content-Type")) then
    HTTPError {| Errors := []; Message := http.Status resp;
                 RequestURL := requestURL; StatusCode := statusCode |}
  else
    match http.Body_ resp with
    | http.Unreadable msg => ReadError msg
    | http.NotJSON msg => DecodeError msg
    | http.Object o =>
        HTTPError {| Errors := default [] (http.j_errors o);
                     Message := default EmptyString (http.j_message o);
                     RequestURL := requestURL; StatusCode := statusCode |}
    end.

(** [json.NewDecoder(resp.Body).Decode(&page)] on a fresh page. *)
Definition decode_page (b : http.Body) : error + search.RepositoriesResult :=
  match b with
  | http.Unreadable msg => inl (ReadError msg)
  | http.NotJSON msg => inl (DecodeError msg)
  | http.Object o =>
      inr {| search.IncompleteResults := default false (http.j_incomplete_results o);
             search.Items := default [] (http.j_items o);
             search.Total := default 0 (http.j_total_count o) |}
  end.

Record searcher := {
  client : http.Client;
  host : string
}.

(** Whatever order the runtime picks for a map iteration, it visits every
    entry once. *)
Definition visits_every_entry
    (mapOrder : nat -> forall A : Type, list (string * A) -> list (string * A)) : Prop :=
  forall n A (l : list (string * A)), mapOrder n A l ≡ₚ l.

Section Searcher.

(** [ghinstance.RESTPrefix], which lives outside this package. *)
Variable RESTPrefix : string -> string.

(** The order in which the runtime walks the entries of a map during the
    [n]-th iteration of the run. *)
Variable mapOrder : nat -> forall A : Type, list (string * A) -> list (string * A).

(** The error, if any, with which [url.Parse] rejects a URL. *)
Variable parseError : string -> option string.

(** [for k, v := range m]: the entries of [m] in the order of this
    iteration. *)
Definition range_map {A} (m : gmap string A) : M (list (string * A)) :=
  fun σ => (mapOrder (ranges σ) A (map_to_list m),
            {| heap := heap σ; ranges := S (ranges σ); sent := sent σ |}).

Definition listSet (q : gmap string search.Qualifier) : M (gmap string string) :=
  entries ← range_map q ;
  ret (foldl (fun (m : gmap string string) kv =>
                let v := snd kv in
                if search.IsSet v then <[search.Key v := search.String_ v]> m
                else m)
             ∅ entries).

Definition QueryString (query : search.Query) : M string :=
  quotedKeywords ← quoteKeywords (search.Keywords query) ;
  words ← Slice.read quotedKeywords ;
  set ← listSet (search.Qualifiers query) ;
  entries ← range_map set ;
  ret (foldl (fun q kv => q +:+ " " +:+ fst kv +:+ ":" +:+ quoteQualifier (snd kv))
             (Bytes.Join words " ") entries).

Definition with_parameters (query : search.Query) (qs : gmap string string) :
    gmap string string :=
  let qs := if search.IsSet (search.Order query)
            then url.Set_ qs (search.Key (search.Order query))
                             (search.String_ (search.Order query))
            else qs in
  if search.IsSet (search.Sort query)
  then url.Set_ qs (search.Key (search.Sort query))
                   (search.String_ (search.Sort query))
  else qs.

Definition URL (s : searcher) (query : search.Query) : M string :=
  let path := "https://" +:+ host s +:+ "/search" in
  q ← QueryString query ;
  let queryString := url.Set_ (url.Set_ ∅ "type" (search.Kind query)) "q" q in
  let queryString := with_parameters query queryString in
  ret (path +:+ "?" +:+ url.Encode queryString).

(** [s.client.Do(req)]: the request goes out and is recorded. *)
Definition Do (s : searcher) (req : http.Request) : M (error + http.Response) :=
  fun σ =>
    (match client s (sent σ) req with
     | inl e => inl e
     | inr reply => inr {| http.Reply_ := reply; http.Request_ := req |}
     end,
     {| heap := heap σ; ranges := ranges σ; sent := req :: sent σ |}).

Definition request_headers : gmap string string :=
  <["Accept" := "application/vnd.github.v3+json"]>
    (<["Content-Type" := "application/json; charset=utf-8"]> ∅).

(** [search] returns the response (if any), the page it decoded into
    (its zero value unless decoding succeeded) and the error (if any). *)
Definition search_ (s : searcher) (query : search.Query) :
    M (option http.Response * search.RepositoriesResult * option error) :=
  let path := RESTPrefix (host s) +:+ "search/" +:+ search.Kind query in
  let qs := url.Set_ ∅ "page" (Bytes.Itoa (search.Page query)) in
  let qs := url.Set_ qs "per_page" (Bytes.Itoa (search.Limit query)) in
  q ← QueryString query ;
  let qs := url.Set_ qs "q" q in
  let qs := with_parameters query qs in
  let u := path +:+ "?" +:+ url.Encode qs in
  match parseError u with
  | Some msg => ret (None, search.empty_result, Some (RequestError msg))
  | None =>
      let req := {| http.Method := "GET";
                    http.URL := {| url.Path := path; url.Query := qs |};
                    http.ReqHeader := request_headers |} in
      r ← Do s req ;
      match r with
      | inl e => ret (None, search.empty_result, Some e)
      | inr resp =>
          let success := (200 <=? http.StatusCode resp) && (http.StatusCode resp <? 300) in
          if negb success then
            ret (Some resp, search.empty_result, Some (handleHTTPError resp))
          else
            match decode_page (http.Body_ resp) with
            | inl e => ret (Some resp, search.empty_result, Some e)
            | inr page => ret (Some resp, page, None)
            end
      end
  end.

(** The loop of [Repositories]; [None] when [fuel] iterations were not
    enough to leave it.  [toRetrieve] is positive whenever a page is
    subtracted and a page holds fewer than [2^63] items, so the
    subtraction cannot wrap around. *)
Fixpoint Repositories_loop (fuel : nat) (s : searcher) (query : search.Query)
    (toRetrieve : Z) (resp : option http.Response)
    (result : search.RepositoriesResult) :
    M (option (search.RepositoriesResult * option error)) :=
  match fuel with
  | O => ret None
  | S fuel' =>
      if 0 <? toRetrieve then
        let query :=
          {| search.Keywords := search.Keywords query;
             search.Kind := search.Kind query;
             search.Limit := min toRetrieve maxPerPage;
             search.Order := search.Order query;
             search.Page := nextPage resp;
             search.Qualifiers := search.Qualifiers query;
             search.Sort := search.Sort query |} in
        if search.Page query =? 0 then ret (Some (result, None))
        else
          r ← search_ s query ;
          match r with
          | (_, _, Some err) => ret (Some (result, Some err))
          | (resp', page, None) =>
              let result :=
                {| search.IncompleteResults := search.IncompleteResults page;
                   search.Total := search.Total page;
                   search.Items := search.Items result ++ search.Items page |} in
              Repositories_loop fuel' s query
                (toRetrieve - Z.of_nat (length (search.Items page))) resp' result
          end
      else ret (Some (result, None))
  end.

Definition Repositories (fuel : nat) (s : searcher) (query : search.Query) :
    M (option (search.RepositoriesResult * option error)) :=
  Repositories_loop fuel s query (search.Limit query) None search.empty_result.

End Searcher.

(** ** Reading a run off the requests it sent

    The results of [search_] and the progress of [Repositories] expressed
    over the list of requests sent (latest first) and the client that
    answered them. *)

Module Trace.

(** The query of one iteration: the caller's query with the page size
    and the page number of that iteration. *)
Definition paging (query : search.Query) (limit page : Z) : search.Query :=
  {| search.Keywords := search.Keywords query;
     search.Kind := search.Kind query;
     search.Limit := limit;
     search.Order := search.Order query;
     search.Page := page;
     search.Qualifiers := search.Qualifiers query;
     search.Sort := search.Sort query |}.

(** The accumulated result after one more page. *)
Definition merge (result page : search.RepositoriesResult) :
    search.RepositoriesResult :=
  {| search.IncompleteResults := search.IncompleteResults page;
     search.Total := search.Total page;
     search.Items := search.Items result ++ search.Items page |}.

(** The request that [search_] builds around the query string [q]. *)
Definition request_of (path : string) (query : search.Query) (q : string) :
    http.Request :=
  let qs := url.Set_ ∅ "page" (Bytes.Itoa (search.Page query)) in
  let qs := url.Set_ qs "per_page" (Bytes.Itoa (search.Limit query)) in
  let qs := url.Set_ qs "q" q in
  {| http.Method := "GET";
     http.URL := {| url.Path := path; url.Query := with_parameters query qs |};
     http.ReqHeader := request_headers |}.

(** What [search_] returns once the client has answered [req]. *)
Definition receive (req : http.Request) (r : error + http.Reply) :
    option http.Response * search.RepositoriesResult * option error :=
  match r with
  | inl e => (None, search.empty_result, Some e)
  | inr reply =>
      let resp := {| http.Reply_ := reply; http.Request_ := req |} in
      if negb ((200 <=? http.StatusCode resp) && (http.StatusCode resp <? 300))
      then (Some resp, search.empty_result, Some (handleHTTPError resp))
      else match decode_page (http.Body_ resp) with
           | inl e => (Some resp, search.empty_result, Some e)
           | inr page => (Some resp, page, None)
           end
  end.

(** The page a request brought back, if it brought one. *)
Definition page_of (req : http.Request) (r : error + http.Reply) :
    option search.RepositoriesResult :=
  match receive req r with
  | (_, page, None) => Some page
  | (_, _, Some _) => None
  end.

(** The pages brought back by the requests [l], oldest first. *)
Fixpoint merged (c : http.Client) (l : list http.Request) :
    list search.RepositoriesResult :=
  match l with
  | [] => []
  | req :: earlier => merged c earlier ++ option_list (page_of req (c earlier req))
  end.

Definition items_of (pages : list search.RepositoriesResult) : list search.Repository :=
  concat (search.Items <$> pages).

(** The number of items brought back by the requests [l]. *)
Definition retrieved (c : http.Client) (l : list http.Request) : Z :=
  Z.of_nat (length (items_of (merged c l))).

(** The [per_page] parameter a request carries. *)
Definition per_page (req : http.Request) : option Z :=
  strconv.Atoi (url.Get (url.Query (http.URL req)) "per_page").

(** Every request asks for what is still missing, capped by the page
    size ceiling. *)
Fixpoint paged (limit : Z) (c : http.Client) (l : list http.Request) : Prop :=
  match l with
  | [] => True
  | req :: earlier =>
      per_page req = Some (min (limit - retrieved c earlier) maxPerPage)
      /\ paged limit c earlier
  end.

(** Every request brought back a page. *)
Fixpoint all_pages (c : http.Client) (l : list http.Request) : Prop :=
  match l with
  | [] => True
  | req :: earlier => is_Some (page_of req (c earlier req)) /\ all_pages c earlier
  end.

(** The response to the latest request. *)
Definition last_response (c : http.Client) (l : list http.Request) :
    option http.Response :=
  match l with
  | [] => None
  | req :: earlier => fst (fst (receive req (c earlier req)))
  end.

(** Every request was sent because the response before it named a next
    page (the first one because there was no response yet). *)
Fixpoint linked (c : http.Client) (l : list http.Request) : Prop :=
  match l with
  | [] => True
  | req :: earlier => nextPage (last_response c earlier) <> 0 /\ linked c earlier
  end.

(** The total and the flag a result carries after merging [pages]. *)
Definition summary (pages : list search.RepositoriesResult) : bool * Z :=
  match last pages with
  | Some p => (search.IncompleteResults p, search.Total p)
  | None => (false, 0)
  end.

(** The accumulated result agrees with the pages brought back by the
    requests [l]. *)
Record consistent (c : http.Client) (l : list http.Request)
    (result : search.RepositoriesResult) : Prop := {
  consistent_items : search.Items result = items_of (merged c l);
  consistent_summary :
    (search.IncompleteResults result, search.Total result) = summary (merged c l)
}.

(** How a fetch that returned an error stopped: either the URL of the
    next request was rejected and nothing more was sent, or the latest
    request is the one that failed; all requests before brought pages. *)
Definition stopped_by (c : http.Client) (l : list http.Request) (err : error) : Prop :=
  (all_pages c l /\ exists msg, err = RequestError msg) \/
  (exists req earlier,
      l = req :: earlier /\ all_pages c earlier /\
      snd (receive req (c earlier req)) = Some err).

(** A server that never sends more items than asked for. *)
Definition honours_per_page (c : http.Client) : Prop :=
  forall earlier req n page,
    per_page req = Some n ->
    page_of req (c earlier req) = Some page ->
    Z.of_nat (length (search.Items page)) <= n.

(** The sort and order parameters do not reuse the name of the page
    size parameter. *)
Definition parameters_apart (query : search.Query) : Prop :=
  search.Key (search.Order query) <> "per_page" /\
  search.Key (search.Sort query) <> "per_page".

End Trace.

(** ** Kinds of servers *)

Module Server.
Import Trace.

(** Every page holds exactly the number of items asked for, and a full
    page comes with a link to a next page. *)
Definition full_pages (c : http.Client) : Prop :=
  forall earlier req n,
    per_page req = Some n ->
    exists resp page,
      receive req (c earlier req) = (Some resp, page, None) /\
      Z.of_nat (length (search.Items page)) = n /\
      (n = maxPerPage -> nextPage (Some resp) <> 0).


(** Every page holds an item or comes without a link to a next page. *)
Definition makes_progress (c : http.Client) : Prop :=
  forall earlier req resp page,
    receive req (c earlier req) = (resp, page, None) ->
    search.Items page <> [] \/ nextPage resp = 0.

End Server.

(** ** Concrete queries, servers and replies *)

Module Examples.

Definition dq : string := Bytes.str1 Bytes.dquote.

Definition prefix (h : string) : string := "https://api." +:+ h +:+ "/".

(** Two ways in which the runtime may walk a map. *)
Definition in_order (n : nat) (A : Type) (l : list (string * A)) := l.
Definition reversed (n : nat) (A : Type) (l : list (string * A)) := rev l.

Definition accepts_all (u : string) : option string := None.

Definition unset (k : string) : search.Qualifier :=
  {| search.IsSet := false; search.Key := k; search.String_ := EmptyString |}.

Definition set_to (k v : string) : search.Qualifier :=
  {| search.IsSet := true; search.Key := k; search.String_ := v |}.

Definition keywords : search.slice :=
  {| search.s_arr := 1; search.s_off := 0; search.s_len := 2 |}.

(** The caller holds the keywords [foo bar] and [cli] in array 1. *)
Definition start : State :=
  {| heap := <[1%positive := ["foo bar"; "cli"]]> ∅; ranges := 0; sent := [] |}.

Definition query (limit : Z) : search.Query :=
  {| search.Keywords := keywords; search.Kind := "repositories";
     search.Limit := limit; search.Order := unset "order"; search.Page := 0;
     search.Qualifiers :=
       <["stars" := set_to "stars" ">100"]>
         (<["language" := set_to "language" "go"]>
            (<["topic" := unset "topic"]> ∅));
     search.Sort := set_to "sort" "stars" |}.

Definition request_int (req : http.Request) (k : string) : Z :=
  default 0 (strconv.Atoi (url.Get (url.Query (http.URL req)) k)).

Definition items (n : Z) : list search.Repository :=
  (fun i => {| search.ID := Z.of_nat i; search.FullName := "cli/cli" |})
    <$> seq 0 (Z.to_nat n).

Definition next_link (p : Z) : string :=
  "<https://api.github.com/search/repositories?page=" +:+ Bytes.Itoa p
  +:+ "&per_page=100>; rel=" +:+ dq +:+ "next" +:+ dq.

Definition page_body (n total : Z) : http.Body :=
  http.Object {| http.j_items := Some (items n);
                 http.j_total_count := Some total;
                 http.j_incomplete_results := Some false;
                 http.j_message := None; http.j_errors := None |}.

Definition page_reply (n : Z) (link : option string) (total : Z) : http.Reply :=
  {| http.r_StatusCode := 200; http.r_Status := "200 OK";
     http.r_Header :=
       match link with
       | Some l => <["Link" := l]> ∅
       | None => ∅
       end;
     http.r_Body := page_body n total |}.

(** A server with an endless corpus: every page is as long as asked for
    and links to a next page. *)
Definition full_pages : http.Client := fun _ req =>
  inr (page_reply (request_int req "per_page") (Some (next_link 2)) 1000).


(** A server whose only page holds three items. *)
Definition single_page : http.Client := fun _ _ =>
  inr (page_reply 3 None 3).

(** A server that ignores [per_page] and sends five items. *)
Definition oversized_page : http.Client := fun _ _ =>
  inr (page_reply 5 None 5).

(** A connection that breaks after the first page. *)
Definition breaks_after_first : http.Client := fun earlier req =>
  match earlier with
  | [] => full_pages earlier req
  | _ => inl (TransportError "connection reset by peer")
  end.

Definition searcher_of (c : http.Client) : searcher :=
  {| client := c; host := "github.com" |}.

Definition search_request (q : string) : http.Request :=
  {| http.Method := "GET";
     http.URL := {| url.Path := "https://api.github.com/search/repositories";
                    url.Query := <["q" := q]> (<["page" := "1"]> (<["per_page" := "30"]> ∅)) |};
     http.ReqHeader := request_headers |}.


Definition validation_failed (errors : option (list httpErrorItem)) : http.Reply :=
  {| http.r_StatusCode := 422; http.r_Status := "422 Unprocessable Entity";
     http.r_Header := <["Content-Type" := "application/json; charset=utf-8"]> ∅;
     http.r_Body :=
       http.Object {| http.j_items := None; http.j_total_count := None;
                      http.j_incomplete_results := None;
                      http.j_message := Some "Validation Failed";
                      http.j_errors := errors |} |}.




(** A rejection that reports no field errors. *)
Definition rejected_bare : http.Response :=
  {| http.Reply_ := validation_failed None;
     http.Request_ := search_request "user:doesnotexist" |}.

Definition unavailable : http.Response :=
  {| http.Reply_ :=
       {| http.r_StatusCode := 503; http.r_Status := "503 Service Unavailable";
          http.r_Header := <["Content-Type" := "text/html"]> ∅;
          http.r_Body := http.NotJSON "invalid character '<'" |};
     http.Request_ := search_request "cli" |}.

End Examples.

(** ** Further notions read off a run *)

(** A request of the search API: a GET of [path] with the two headers
    that [search_] sets. *)
Definition addressed_to (path : string) (req : http.Request) : Prop :=
  http.Method req = "GET" /\
  url.Path (http.URL req) = path /\
  http.ReqHeader req = request_headers.

(** The reply to [req] after [earlier] was a success that carried a
    decodable page. *)
Definition answered_with_page (c : http.Client) (earlier : list http.Request)
    (req : http.Request) (page : search.RepositoriesResult) : Prop :=
  exists reply o,
    c earlier req = inr reply /\
    200 <= http.r_StatusCode reply < 300 /\
    http.r_Body reply = http.Object o /\
    decode_page (http.Object o) = inr page.

(** The text that [QueryString] writes for one entry of the map of set
    qualifiers. *)
Definition qualifier_text (kv : string * string) : string :=
  " " +:+ fst kv +:+ ":" +:+ quoteQualifier (snd kv).

Fixpoint concat_text (l : list string) : string :=
  match l with
  | [] => EmptyString
  | s :: rest => s +:+ concat_text rest
  end.

(** Between the stores [h] and [h'] nothing changed but, at most, the
    cells seen through the slice [ks]: every other array is the same,
    the array of [ks] kept its length, and its cells before and after
    the window of [ks] kept their values. *)
Definition untouched_outside (ks : search.slice)
    (h h' : gmap positive (list string)) : Prop :=
  (forall a, a <> search.s_arr ks -> h' !! a = h !! a) /\
  length (Slice.array h' (search.s_arr ks)) = length (Slice.array h (search.s_arr ks)) /\
  (forall j, (j < search.s_off ks \/ search.s_off ks + search.s_len ks <= j)%nat ->
             Slice.array h' (search.s_arr ks) !! j = Slice.array h (search.s_arr ks) !! j).

(** ** Link headers as servers write them *)

Module Link.

(** One link: the target in angle brackets and its relation. *)
Definition entry (l : string * string) : string :=
  "<" +:+ fst l +:+ ">; rel=" +:+ Bytes.str1 Bytes.dquote +:+ snd l
  +:+ Bytes.str1 Bytes.dquote.

(** The header value for a list of (target, relation) pairs. *)
Definition header (links : list (string * string)) : string :=
  Bytes.Join (entry <$> links) ", ".

(** A target without a closing bracket and a relation without a quote,
    neither of them empty. *)
Definition well_formed (l : string * string) : Prop :=
  fst l <> EmptyString /\ Bytes.ContainsByte (fst l) ">" = false /\
  snd l <> EmptyString /\ Bytes.ContainsByte (snd l) Bytes.dquote = false.

(** A target whose first parameter is the page number [p]. *)
Definition page_url (base : string) (p : Z) (tail : string) : string :=
  base +:+ "?page=" +:+ Bytes.Itoa p +:+ tail.

(** What may follow the page number: nothing, or further parameters. *)
Definition parameters (tail : string) : Prop :=
  tail = EmptyString \/ exists rest, tail = String "&" rest.

End Link.

(** The page number a request carries. *)
Definition page_number (req : http.Request) : option Z :=
  strconv.Atoi (url.Get (url.Query (http.URL req)) "page").

(** Every request asks for the page that the response before it named,
    the first one for page 1. *)
Fixpoint numbered (c : http.Client) (l : list http.Request) : Prop :=
  match l with
  | [] => True
  | req :: earlier =>
      page_number req = Some (nextPage (Trace.last_response c earlier))
      /\ numbered c earlier
  end.

(** The sort and order parameters do not reuse the name of the page
    number parameter. *)
Definition page_apart (query : search.Query) : Prop :=
  search.Key (search.Order query) <> "page" /\
  search.Key (search.Sort query) <> "page".

(** ** Keys derived from field names

    The earlier version of the file names a qualifier after the field
    that holds it.  Field names are ASCII identifiers, so a rune is a
    byte here; [unicode.IsLower], [unicode.IsNumber] and
    [unicode.ToLower] are the ASCII ones. *)

Module unicode.

Definition IsLower (c : ascii) : bool :=
  let n := nat_of_ascii c in (97 <=? n)%nat && (n <=? 122)%nat.

Definition IsUpper (c : ascii) : bool :=
  let n := nat_of_ascii c in (65 <=? n)%nat && (n <=? 90)%nat.

Definition IsNumber (c : ascii) : bool := Bytes.is_digit c.

Definition ToLower (c : ascii) : ascii :=
  if IsUpper c then ascii_of_nat (nat_of_ascii c + 32) else c.

Definition ToUpper (c : ascii) : ascii :=
  if IsLower c then ascii_of_nat (nat_of_ascii c - 32) else c.

End unicode.

Definition addSegment (inrune segment : string) : string :=
  match segment with
  | EmptyString => inrune
  | _ =>
      (match inrune with
       | EmptyString => inrune
       | _ => inrune +:+ "-"
       end) +:+ segment
  end.

(** The loop of [camelCaseToDash] over what is left of [str]. *)
Fixpoint camelCaseToDash_loop (str output segment : string) : string :=
  match str with
  | EmptyString => addSegment output segment
  | String r rest =>
      if negb (unicode.IsLower r) && negb (Ascii.eqb r "-")
         && negb (unicode.IsNumber r)
      then camelCaseToDash_loop rest (addSegment output segment)
             (Bytes.str1 (unicode.ToLower r))
      else camelCaseToDash_loop rest output
             (segment +:+ Bytes.str1 (unicode.ToLower r))
  end.

Definition camelCaseToDash (str : string) : string :=
  camelCaseToDash_loop str EmptyString EmptyString.

(** Bytes that do not start a segment: lower-case letters, digits and
    the dash. *)
Definition inside_segment (c : ascii) : bool :=
  unicode.IsLower c || Ascii.eqb c "-" || unicode.IsNumber c.

Fixpoint all_inside (s : string) : bool :=
  match s with
  | EmptyString => true
  | String c s' => inside_segment c && all_inside s'
  end.

(** A word of a field name in lower case: a letter followed by letters,
    digits and dashes. *)
Definition lower_word (w : string) : bool :=
  match w with
  | EmptyString => false
  | String c r => unicode.IsLower c && all_inside r
  end.

(** The same word with a capital first letter. *)
Definition capitalized (w : string) : string :=
  match w with
  | EmptyString => EmptyString
  | String c r => String (unicode.ToUpper c) r
  end.

(** ** Validation of range flags in the [repos] command

    [rangeRE] is an optional operator (one of [>], [>=], [<], [<=] and
    [*..]), one or more digits and, optionally, two dots followed by a
    star or by one or more digits; [dateTimeRangeRE] is the same with,
    in place of a digit, a digit or one of [-], [+], [:] and [T].  Both
    are anchored at the two ends of the text.  No byte that may follow a
    run of the class belongs to the class, so the run taken is the
    longest one. *)

Module repos.

Definition operators : list string := [">"; ">="; "<"; "<="; "*.."].

Definition date_byte (c : ascii) : bool :=
  Bytes.is_digit c || Bytes.mem c ["-"; "+"; ":"; "T"]%char.

(** The part after the operator. *)
Definition range_body (cls : ascii -> bool) (s : string) : bool :=
  match regexp.span cls s with
  | (EmptyString, _) => false
  | (_, EmptyString) => true
  | (_, rest) =>
      match regexp.strip_prefix ".." rest with
      | None => false
      | Some upper =>
          String.eqb upper "*" ||
          match regexp.span cls upper with
          | (String _ _, EmptyString) => true
          | _ => false
          end
      end
  end.

Definition range_match (cls : ascii -> bool) (s : string) : bool :=
  range_body cls s ||
  existsb (fun op => match regexp.strip_prefix op s with
                     | Some s' => range_body cls s'
                     | None => false
                     end) operators.

Definition rangeRE_Match (s : string) : bool := range_match Bytes.is_digit s.

Definition dateTimeRangeRE_Match (s : string) : bool := range_match date_byte s.

End repos.

(** ** The [repos] command

    [reposRun] and the [RunE] function of [NewCmdRepos].  The command
    talks to its collaborators through interfaces: the searcher, the
    configuration, the browser, the streams and the exporters.  Every
    call that can be observed from outside is recorded in a log, latest
    first. *)

Module command.

(** The errors of the command: a rejected flag, a failing collaborator,
    a failed search. *)
Inductive failure :=
| FlagError (msg : string)
| Failed (msg : string)
| SearchFailed (err : error).

Inductive Event :=
| ProgressStarted
| ProgressStopped
| PagerStarted
| PagerStopped
| WroteErrOut (text : string)
| Browsed (url : string)
| FilteredJSON (json expr : string)
| ExecutedTemplate (json template : string)
| Displayed (result : search.RepositoriesResult).

Record World := { store : State; log : list Event }.

(** [search.Searcher]; a call of [Repositories] that does not return
    yields [None]. *)
Record Searcher := {
  Repositories_ : search.Query -> M (option (search.RepositoriesResult * option error));
  URL_ : search.Query -> M string
}.

(** What the command uses of [iostreams.IOStreams]: whether standard
    output is a terminal, and the error, if any, with which the pager
    fails to start. *)
Record IOStreams := {
  IsStdoutTTY : bool;
  StartPager : option string
}.

Record ReposOptions := {
  Browse : string -> option failure;
  Config : failure + (failure + string);
  GoTemplate : string;
  HttpClient : failure + http.Client;
  IO : IOStreams;
  JqExpression : string;
  Query : search.Query;
  WebMode : bool
}.

Definition nonempty (s : string) : bool :=
  match s with
  | EmptyString => false
  | String _ _ => true
  end.

Section Command.

(** [shared.NewSearcher], [utils.DisplayURL], [json.Marshal] of the
    items, [export.FilterJSON], the execution of an [export.Template],
    and [displayResults], which prints through the table printer. *)
Variable NewSearcher : http.Client -> string -> Searcher.
Variable DisplayURL : string -> string.
Variable Marshal : list search.Repository -> failure + string.
Variable FilterJSON : string -> string -> option failure.
Variable Execute : string -> string -> option failure.
Variable displayResults : search.RepositoriesResult -> option failure.

(** The part of [reposRun] that follows a successful search: the pager,
    then one of the three ways of writing the result.  The deferred
    [StopPager] runs on every way out once the pager has started. *)
Definition present (opts : ReposOptions) (result : search.RepositoriesResult)
    (log : list Event) : option failure * list Event :=
  let '(log, paging) :=
    match StartPager (IO opts) with
    | None => (PagerStarted :: log, true)
    | Some err =>
        (WroteErrOut ("failed to start pager: " +:+ err +:+ Bytes.str1 Bytes.lf) :: log,
         false)
    end in
  let '(err, log) :=
    if nonempty (JqExpression opts) then
      match Marshal (search.Items result) with
      | inl err => (Some err, log)
      | inr j => (FilterJSON j (JqExpression opts),
                  FilteredJSON j (JqExpression opts) :: log)
      end
    else if nonempty (GoTemplate opts) then
      match Marshal (search.Items result) with
      | inl err => (Some err, log)
      | inr j => (Execute (GoTemplate opts) j,
                  ExecutedTemplate j (GoTemplate opts) :: log)
      end
    else (displayResults result, Displayed result :: log) in
  (err, if paging then PagerStopped :: log else log).

(** [reposRun]: the error returned ([None] inside for [nil]), or [None]
    when the search does not return. *)
Definition reposRun (opts : ReposOptions) (w : World) :
    option (option failure) * World :=
  match Config opts with
  | inl err => (Some (Some err), w)
  | inr (inl err) => (Some (Some err), w)
  | inr (inr host) =>
      match HttpClient opts with
      | inl err => (Some (Some err), w)
      | inr client =>
          let searcher := NewSearcher client host in
          if WebMode opts then
            let '(url, σ) := URL_ searcher (Query opts) (store w) in
            let log :=
              if IsStdoutTTY (IO opts)
              then WroteErrOut ("Opening " +:+ DisplayURL url +:+ " in your browser."
                                +:+ Bytes.str1 Bytes.lf) :: log w
              else log w in
            (Some (Browse opts url), {| store := σ; log := Browsed url :: log |})
          else
            let log := ProgressStarted :: log w in
            match Repositories_ searcher (Query opts) (store w) with
            | (None, σ) => (None, {| store := σ; log := log |})
            | (Some (result, err), σ) =>
                let log := ProgressStopped :: log in
                match err with
                | Some err => (Some (Some (SearchFailed err)), {| store := σ; log := log |})
                | None =>
                    let '(err, log) := present opts result log in
                    (Some err, {| store := σ; log := log |})
                end
            end
      end
  end.

(** [cmdutil.MutuallyExclusive] and the test hook [runF]. *)
Variable MutuallyExclusive : string -> list bool -> option failure.
Variable runF : option (ReposOptions -> World -> option (option failure) * World).

Definition RunE (opts : ReposOptions) (args : search.slice) (w : World) :
    option (option failure) * World :=
  let query := Query opts in
  let opts :=
    {| Browse := Browse opts; Config := Config opts; GoTemplate := GoTemplate opts;
       HttpClient := HttpClient opts; IO := IO opts;
       JqExpression := JqExpression opts;
       Query := {| search.Keywords := args; search.Kind := search.Kind query;
                   search.Limit := search.Limit query;
                   search.Order := search.Order query;
                   search.Page := search.Page query;
                   search.Qualifiers := search.Qualifiers query;
                   search.Sort := search.Sort query |};
       WebMode := WebMode opts |} in
  match MutuallyExclusive
          "expected exactly one of `--jq`, `--template`, or `--web`"
          [nonempty (GoTemplate opts); nonempty (JqExpression opts); WebMode opts] with
  | Some err => (Some (Some err), w)
  | None =>
      if (search.Limit (Query opts) <? 1) || (1000 <? search.Limit (Query opts))
      then (Some (Some (FlagError "`--limit` must be between 1 and 1000")), w)
      else match runF with
           | Some f => f opts w
           | None => reposRun opts w
           end
  end.

End Command.

(** The searcher of [shared] behind the interface, with [fuel] turns of
    its loop. *)
Definition NewSearcher (RESTPrefix : string -> string)
    (mapOrder : nat -> forall A : Type, list (string * A) -> list (string * A))
    (parseError : string -> option string) (fuel : nat)
    (c : http.Client) (h : string) : Searcher :=
  let s := {| client := c; host := h |} in
  {| Repositories_ := Repositories RESTPrefix mapOrder parseError fuel s;
     URL_ := URL mapOrder s |}.

(** The events that write results. *)
Definition writes_results (e : Event) : bool :=
  match e with
  | FilteredJSON _ _ | ExecutedTemplate _ _ | Displayed _ => true
  | _ => false
  end.

Definition is_ProgressStarted (e : Event) : bool :=
  match e with ProgressStarted => true | _ => false end.

Definition is_ProgressStopped (e : Event) : bool :=
  match e with ProgressStopped => true | _ => false end.

Definition is_PagerStarted (e : Event) : bool :=
  match e with PagerStarted => true | _ => false end.

Definition is_PagerStopped (e : Event) : bool :=
  match e with PagerStopped => true | _ => false end.

(** The number of events of a kind in a log. *)
Fixpoint count (kind : Event -> bool) (l : list Event) : nat :=
  match l with
  | [] => 0
  | e :: rest => (if kind e then 1 else 0) + count kind rest
  end.

End command.

(** A run of the command with collaborators that always succeed. *)
Module CommandExamples.
Import command.

Definition marshal (items : list search.Repository) : failure + string :=
  inr (Bytes.Itoa (Z.of_nat (length items))).

Definition accept (a b : string) : option failure := None.

Definition display (result : search.RepositoriesResult) : option failure := None.

Definition exclusive (msg : string) (conditions : list bool) : option failure :=
  if (1 <? length (filter (fun b => b = true) conditions))%nat
  then Some (FlagError msg) else None.

Definition options (c : http.Client) (limit : Z) : ReposOptions :=
  {| Browse := fun _ => None;
     Config := inr (inr "github.com");
     GoTemplate := EmptyString;
     HttpClient := inr c;
     IO := {| IsStdoutTTY := true; StartPager := None |};
     JqExpression := EmptyString;
     Query := Examples.query limit;
     WebMode := false |}.

Definition world : World := {| store := Examples.start; log := [] |}.

Definition searchers : http.Client -> string -> Searcher :=
  NewSearcher Examples.prefix Examples.in_order Examples.accepts_all 4.

End CommandExamples.

(** Every request was sent while fewer items than the limit had been
    brought back. *)
Fixpoint wanted (limit : Z) (c : http.Client) (l : list http.Request) : Prop :=
  match l with
  | [] => True
  | req :: earlier => Trace.retrieved c earlier < limit /\ wanted limit c earlier
  end.

(** * Properties *)

(** ** Byte strings *)

Module BytesFacts.
Import Bytes.

Lemma app_cons c s t : String c s +:+ t = String c (s +:+ t).
Proof. reflexivity. Qed.

Lemma app_empty_l s : EmptyString +:+ s = s.
Proof. reflexivity. Qed.

Lemma app_assoc s t u : (s +:+ t) +:+ u = s +:+ t +:+ u.
Proof. induction s as [|c s IH]; [done|]. by rewrite !app_cons, IH. Qed.

Lemma length_app s t :
  String.length (s +:+ t) = (String.length s + String.length t)%nat.
Proof. induction s as [|c s IH]; [done|]. rewrite app_cons. simpl. by rewrite IH. Qed.







Lemma ContainsByte_app_sep key val c :
  ContainsByte (key +:+ String c val) c = true.
Proof.
  induction key as [|d key IH].
  - simpl. by rewrite Ascii.eqb_refl.
  - rewrite app_cons. simpl. rewrite IH. by destruct (Ascii.eqb d c).
Qed.

(** [SplitN] cuts at the first separator. *)
Lemma SplitN2_first key val c :
  ContainsByte key c = false ->
  SplitN2 (key +:+ String c val) c = (key, Some val).
Proof.
  induction key as [|d key IH]; intros H.
  - simpl. by rewrite Ascii.eqb_refl.
  - simpl in H. rewrite app_cons. simpl.
    destruct (Ascii.eqb d c); [done|]. by rewrite IH.
Qed.

(** Where the separator occurs, [SplitN] yields two parts. *)
Lemma SplitN2_two s c :
  ContainsByte s c = true -> exists a b, SplitN2 s c = (a, Some b).
Proof.
  induction s as [|d s IH]; intros H; [done|].
  simpl in *. destruct (Ascii.eqb d c); [by eauto|].
  destruct (IH H) as (a & b & ->). by eauto.
Qed.

End BytesFacts.

Module QuoteFacts.
Import Bytes strconv BytesFacts.

Lemma escape_byte_length c : (1 <= String.length (escape_byte c))%nat.
Proof.
  unfold escape_byte. repeat case_match; simpl; lia.
Qed.

Lemma escape_length s : (String.length s <= String.length (escape s))%nat.
Proof.
  induction s as [|c s IH]; [done|].
  simpl. rewrite length_app. pose proof (escape_byte_length c). lia.
Qed.

Lemma Quote_length s : (String.length s + 2 <= String.length (Quote s))%nat.
Proof.
  unfold Quote. simpl. rewrite length_app. simpl.
  pose proof (escape_length s). lia.
Qed.

(** Quoting never returns its argument. *)
Lemma Quote_neq s : Quote s <> s.
Proof.
  intros H. pose proof (Quote_length s) as L. rewrite H in L. lia.
Qed.

(** The result of quoting starts and ends with a double quote. *)
Lemma Quote_wrapped s :
  Quote s = str1 dquote +:+ escape s +:+ str1 dquote.
Proof. reflexivity. Qed.

End QuoteFacts.

(** ** Quoting of keywords and qualifier values *)

(** C5. A keyword without whitespace (space, tab, carriage return, line
    feed) and without a double quote is rendered unchanged; a keyword with
    one of them and no colon is rendered as its Go-quoted form, which
    starts and ends with a double quote; with a colon it is cut at the
    first colon, the key is kept and only the rest is quoted.  A qualifier
    value is quoted exactly when it holds whitespace or a double quote,
    whatever colons it holds. *)
Theorem quoting_rule :
  (forall k, Bytes.ContainsAny k quoteChars = false -> quoteKeyword k = k) /\
  (forall k, Bytes.ContainsAny k quoteChars = true ->
             Bytes.ContainsByte k Bytes.colon = false ->
             quoteKeyword k = strconv.Quote k) /\
  (forall key val,
      Bytes.ContainsByte key Bytes.colon = false ->
      Bytes.ContainsAny (key +:+ ":" +:+ val) quoteChars = true ->
      quoteKeyword (key +:+ ":" +:+ val) = key +:+ ":" +:+ strconv.Quote val) /\
  (forall q, Bytes.ContainsAny q quoteChars = true <-> quoteQualifier q = strconv.Quote q) /\
  (forall q, Bytes.ContainsAny q quoteChars = false <-> quoteQualifier q = q) /\
  (forall s, strconv.Quote s
             = Bytes.str1 Bytes.dquote +:+ strconv.escape s +:+ Bytes.str1 Bytes.dquote) /\
  quoteKeyword "label:in progress"
  = "label:" +:+ Bytes.str1 Bytes.dquote +:+ "in progress" +:+ Bytes.str1 Bytes.dquote.
Proof.
  repeat split.
  - intros k H. unfold quoteKeyword. by rewrite H.
  - intros k H1 H2. unfold quoteKeyword. by rewrite H1, H2.
  - intros key val H1 H2. unfold quoteKeyword. rewrite H2.
    change (":" +:+ val) with (String Bytes.colon val).
    rewrite BytesFacts.ContainsByte_app_sep.
    by rewrite (BytesFacts.SplitN2_first _ _ _ H1).
  - intros H. unfold quoteQualifier. by rewrite H.
  - unfold quoteQualifier. destruct (Bytes.ContainsAny q quoteChars); [done|].
    intros H. symmetry in H. by apply QuoteFacts.Quote_neq in H.
  - intros H. unfold quoteQualifier. by rewrite H.
  - unfold quoteQualifier. destruct (Bytes.ContainsAny q quoteChars); [|done].
    intros H. by apply QuoteFacts.Quote_neq in H.
Qed.

Lemma quoting_rule_witness :
  quoteKeyword "repo" = "repo" /\
  quoteKeyword "in progress" = strconv.Quote "in progress" /\
  quoteKeyword ("label" +:+ ":" +:+ "in progress")
  = "label" +:+ ":" +:+ strconv.Quote "in progress" /\
  quoteQualifier "a:b c" = strconv.Quote "a:b c" /\
  quoteQualifier ">100" = ">100".
Proof.
  destruct quoting_rule as (H1 & H2 & H3 & H4 & H5 & _).
  split; [apply H1; reflexivity|].
  split; [apply H2; reflexivity|].
  split; [apply H3; reflexivity|].
  split; [apply H4; reflexivity|apply H5; reflexivity].
Defined.

(** ** Error translation *)





(** C7. When the content type of a failed response is not a JSON media
    type, the translated error is the same whatever the body holds, its
    message is the status line of the response and it lists no field
    errors; for a status other than 422 it is printed as
    [HTTP code: status line (url)]. *)
Theorem non_json_error_is_status_line (resp : http.Response) :
  regexp.jsonTypeRE_Match (http.Header_Get resp "Content-Type") = false ->
  (forall body, handleHTTPError (http.with_body resp body) = handleHTTPError resp) /\
  exists err,
    handleHTTPError resp = HTTPError err /\
    Message err = http.Status resp /\
    Errors err = [] /\
    StatusCode err = http.StatusCode resp /\
    (http.StatusCode resp <> 422 ->
     httpError_Error err
     = Returns ("HTTP " +:+ Bytes.Itoa (http.StatusCode resp) +:+ ": "
                +:+ http.Status resp +:+ " ("
                +:+ url.String_ (http.URL (http.Request_ resp)) +:+ ")")).
Proof.
  intros H. split.
  - intros body. unfold handleHTTPError.
    change (http.Header_Get (http.with_body resp body) "Content-Type")
      with (http.Header_Get resp "Content-Type").
    by rewrite H.
  - eexists. unfold handleHTTPError. rewrite H. simpl.
    split; [reflexivity|]. do 3 (split; [reflexivity|]).
    intros Hne. unfold httpError_Error. simpl.
    destruct (http.StatusCode resp =? 422) eqn:E; [lia|done].
Qed.

Lemma non_json_error_is_status_line_witness :
  exists err,
    handleHTTPError Examples.unavailable = HTTPError err /\
    Message err = "503 Service Unavailable".
Proof.
  destruct (non_json_error_is_status_line Examples.unavailable eq_refl)
    as (_ & err & H1 & H2 & _).
  exists err. split; [exact H1 | exact H2].
Defined.

(** C9. A response with status 422 and a JSON content type whose body
    lists no field errors is translated into an error value, and printing
    that value fails with an index out of range instead of returning a
    message. *)
Theorem error_rendering_panics (resp : http.Response) (o : http.JSONObject) :
  http.StatusCode resp = 422 ->
  regexp.jsonTypeRE_Match (http.Header_Get resp "Content-Type") = true ->
  http.Body_ resp = http.Object o ->
  default [] (http.j_errors o) = [] ->
  exists err,
    handleHTTPError resp = HTTPError err /\
    httpError_Error err = Panics "index out of range [0] with length 0".
Proof.
  intros Hc Hj Hb He. eexists. unfold handleHTTPError.
  rewrite Hj, Hb. simpl. split; [reflexivity|].
  unfold httpError_Error. simpl. by rewrite Hc, He.
Qed.

Lemma error_rendering_panics_witness :
  exists err,
    handleHTTPError Examples.rejected_bare = HTTPError err /\
    httpError_Error err = Panics "index out of range [0] with length 0".
Proof.
  apply (error_rendering_panics Examples.rejected_bare
           {| http.j_items := None; http.j_total_count := None;
              http.j_incomplete_results := None;
              http.j_message := Some "Validation Failed";
              http.j_errors := None |}); reflexivity.
Defined.

(** ** The state monad *)

Lemma bind_run {A B} (m : M A) (k : A -> M B) (σ : State) :
  (m ≫= k) σ = k (m σ).1 (m σ).2.
Proof. unfold mbind, M_bind. by destruct (m σ). Qed.

Lemma ret_run {A} (a : A) (σ : State) : ret a σ = (a, σ).
Proof. reflexivity. Qed.

(** A loop whose body leaves the network alone leaves it alone. *)
Lemma for_range_frame idx body σ :
  (forall i σ, ranges (body i σ).2 = ranges σ /\ sent (body i σ).2 = sent σ) ->
  ranges (for_range idx body σ).2 = ranges σ /\
  sent (for_range idx body σ).2 = sent σ.
Proof.
  intros Hbody. revert σ. induction idx as [|i idx IH]; intros σ; [done|].
  simpl. rewrite bind_run.
  destruct (IH (body i σ).2) as [-> ->]. apply Hbody.
Qed.

Lemma quoteKeywords_frame ks σ :
  (quoteKeywords ks σ).1 = ks /\
  ranges (quoteKeywords ks σ).2 = ranges σ /\
  sent (quoteKeywords ks σ).2 = sent σ.
Proof.
  unfold quoteKeywords. rewrite bind_run. split; [done|].
  apply for_range_frame. intros i σ'. by rewrite bind_run.
Qed.

Section FetchFacts.

Variable RESTPrefix : string -> string.
Variable mapOrder : nat -> forall A : Type, list (string * A) -> list (string * A).
Variable parseError : string -> option string.

Lemma listSet_sent q σ : sent (listSet mapOrder q σ).2 = sent σ.
Proof. unfold listSet. by rewrite bind_run. Qed.

(** Rendering a query sends nothing. *)
Lemma QueryString_sent query σ : sent (QueryString mapOrder query σ).2 = sent σ.
Proof.
  unfold QueryString. rewrite !bind_run. simpl.
  apply quoteKeywords_frame.
Qed.

(** [search_] renders the query, builds the request and, unless the URL
    is rejected, hands it to the client. *)
Lemma search_unfold s query σ :
  let q := (QueryString mapOrder query σ).1 in
  let σq := (QueryString mapOrder query σ).2 in
  let req := Trace.request_of (RESTPrefix (host s) +:+ "search/" +:+ search.Kind query)
               query q in
  search_ RESTPrefix mapOrder parseError s query σ
  = match parseError (url.String_ (http.URL req)) with
    | Some msg => ((None, search.empty_result, Some (RequestError msg)), σq)
    | None => (Trace.receive req (client s (sent σ) req),
               {| heap := heap σq; ranges := ranges σq; sent := req :: sent σ |})
    end.
Proof.
  intros q σq req. unfold search_. rewrite bind_run.
  fold q σq. change (Do s _) with (Do s req).
  change (parseError _) with (parseError (url.String_ (http.URL req))).
  destruct (parseError (url.String_ (http.URL req))); [reflexivity|].
  rewrite bind_run. unfold Do at 1 2. simpl.
  assert (Hs : sent σq = sent σ) by apply QueryString_sent. rewrite Hs.
  unfold Trace.receive.
  destruct (client s (sent σ) req) as [e|reply]; [reflexivity|].
  simpl. repeat case_match; reflexivity.
Qed.

End FetchFacts.

(** ** Decimal page sizes *)

Lemma Atoi_Itoa_small n : 0 <= n <= 100 -> strconv.Atoi (Bytes.Itoa n) = Some n.
Proof.
  intros H. assert (exists k : nat, (k <= 100)%nat /\ n = Z.of_nat k) as (k & Hk & ->).
  { exists (Z.to_nat n). lia. }
  clear H. do 101 (destruct k as [|k]; [vm_compute; reflexivity|]). lia.
Qed.

Lemma min_page_size t : 0 < t -> 1 <= min t maxPerPage <= 100.
Proof. unfold min, maxPerPage. intros H. destruct (t <? 100) eqn:E; lia. Qed.

Lemma min_le_l a b : min a b <= a.
Proof. unfold min. destruct (a <? b) eqn:E; lia. Qed.

(** ** Pages read off the trace *)

Module TraceFacts.
Import Trace.

Lemma items_of_snoc pages p :
  items_of (pages ++ [p]) = items_of pages ++ search.Items p.
Proof.
  unfold items_of. rewrite fmap_app, concat_app. simpl. by rewrite app_nil_r.
Qed.

Lemma summary_snoc pages p :
  summary (pages ++ [p]) = (search.IncompleteResults p, search.Total p).
Proof. unfold summary. by rewrite last_snoc. Qed.

Lemma merged_page c req earlier p :
  page_of req (c earlier req) = Some p ->
  merged c (req :: earlier) = merged c earlier ++ [p].
Proof. intros H. simpl. by rewrite H. Qed.

Lemma merged_failure c req earlier :
  page_of req (c earlier req) = None ->
  merged c (req :: earlier) = merged c earlier.
Proof. intros H. simpl. rewrite H. apply app_nil_r. Qed.

Lemma retrieved_page c req earlier p :
  page_of req (c earlier req) = Some p ->
  retrieved c (req :: earlier)
  = retrieved c earlier + Z.of_nat (length (search.Items p)).
Proof.
  intros H. unfold retrieved. rewrite (merged_page _ _ _ _ H), items_of_snoc.
  rewrite length_app. lia.
Qed.

Lemma receive_page req r resp page :
  receive req r = (resp, page, None) -> page_of req r = Some page.
Proof. unfold page_of. by intros ->. Qed.

Lemma receive_error req r resp page err :
  receive req r = (resp, page, Some err) -> page_of req r = None.
Proof. unfold page_of. by intros ->. Qed.

(** The page size parameter survives the parameters added after it. *)
Lemma per_page_request path query q :
  parameters_apart query ->
  0 <= search.Limit query <= 100 ->
  per_page (request_of path query q) = Some (search.Limit query).
Proof.
  intros [Ho Hs] Hl. unfold per_page, request_of, with_parameters, url.Get, url.Set_.
  simpl.
  assert (forall m : gmap string string,
             m !! "per_page" = Some (Bytes.Itoa (search.Limit query)) ->
             strconv.Atoi (default EmptyString (m !! "per_page"))
             = Some (search.Limit query)) as Hm.
  { intros m ->. simpl. by apply Atoi_Itoa_small. }
  apply Hm.
  repeat case_match; rewrite ?lookup_insert_ne by done;
    rewrite ?lookup_insert_ne by (by intros [=]); apply lookup_insert_eq.
Qed.

(** Against a server that honours the page size, the requests of a fetch
    never bring back more than the limit. *)
Lemma retrieved_le_limit limit c l :
  honours_per_page c -> 0 <= limit -> paged limit c l ->
  retrieved c l <= limit.
Proof.
  intros Hc Hl. induction l as [|req earlier IH]; intros Hp.
  - unfold retrieved. simpl. lia.
  - destruct Hp as [Hpp Hp]. specialize (IH Hp).
    destruct (page_of req (c earlier req)) as [p|] eqn:E.
    + rewrite (retrieved_page _ _ _ _ E).
      pose proof (Hc _ _ _ _ Hpp E).
      pose proof (min_le_l (limit - retrieved c earlier) maxPerPage). lia.
    + unfold retrieved. by rewrite (merged_failure _ _ _ E).
Qed.

End TraceFacts.

(** ** The pagination loop *)

Section LoopFacts.

Variable RESTPrefix : string -> string.
Variable mapOrder : nat -> forall A : Type, list (string * A) -> list (string * A).
Variable parseError : string -> option string.

Abbreviation loop := (Repositories_loop RESTPrefix mapOrder parseError).
Abbreviation search1 := (search_ RESTPrefix mapOrder parseError).

Lemma loop_done fuel s query t resp result σ :
  t <= 0 -> loop (S fuel) s query t resp result σ = (Some (result, None), σ).
Proof. intros H. simpl. destruct (0 <? t) eqn:E; [lia|reflexivity]. Qed.

Lemma loop_break fuel s query t resp result σ :
  nextPage resp = 0 ->
  loop (S fuel) s query t resp result σ = (Some (result, None), σ).
Proof.
  intros H. simpl. destruct (0 <? t); [|reflexivity]. by rewrite H.
Qed.

(** One turn of the loop that sends a request. *)
Lemma loop_step fuel s query t resp result σ :
  0 < t -> nextPage resp <> 0 ->
  let query' := Trace.paging query (min t maxPerPage) (nextPage resp) in
  loop (S fuel) s query t resp result σ
  = match (search1 s query' σ).1 with
    | (_, _, Some err) => (Some (result, Some err), (search1 s query' σ).2)
    | (resp', page, None) =>
        loop fuel s query' (t - Z.of_nat (length (search.Items page))) resp'
          (Trace.merge result page) (search1 s query' σ).2
    end.
Proof.
  intros Ht Hp query'. simpl.
  destruct (0 <? t) eqn:E; [|lia].
  destruct (nextPage resp =? 0) eqn:E'; [lia|].
  rewrite bind_run. change (search1 s _ σ) with (search1 s query' σ).
  destruct (search1 s query' σ) as [[[resp' page] [err|]] σ']; reflexivity.
Qed.

(** What one [search_] does to the trace. *)
Lemma search_trace s query σ :
  let r := search1 s query σ in
  (exists msg, r.1 = (None, search.empty_result, Some (RequestError msg))
               /\ sent r.2 = sent σ) \/
  (exists q,
      let req := Trace.request_of
                   (RESTPrefix (host s) +:+ "search/" +:+ search.Kind query) query q in
      r.1 = Trace.receive req (client s (sent σ) req) /\
      sent r.2 = req :: sent σ).
Proof.
  intros r. unfold r. rewrite search_unfold.
  case_match.
  - left. eexists. split; [reflexivity|]. apply QueryString_sent.
  - right. eexists. split; reflexivity.
Qed.

(** When no URL is rejected, every [search_] sends its request. *)
Lemma search_sends s query σ :
  (forall u, parseError u = None) ->
  exists q,
    let req := Trace.request_of
                 (RESTPrefix (host s) +:+ "search/" +:+ search.Kind query) query q in
    (search1 s query σ).1 = Trace.receive req (client s (sent σ) req) /\
    sent (search1 s query σ).2 = req :: sent σ.
Proof.
  intros Hp. rewrite search_unfold, Hp. eexists. split; reflexivity.
Qed.

(** The loop keeps the accumulated result in step with the trace, and
    every request it adds asks for the right page size. *)
Lemma loop_consistent limit fuel s query t resp result σ out σ' :
  Trace.consistent (client s) (sent σ) result ->
  Trace.all_pages (client s) (sent σ) ->
  t = limit - Trace.retrieved (client s) (sent σ) ->
  loop fuel s query t resp result σ = (Some out, σ') ->
  Trace.consistent (client s) (sent σ') out.1 /\
  match out.2 with
  | None => Trace.all_pages (client s) (sent σ')
  | Some err => Trace.stopped_by (client s) (sent σ') err
  end /\
  (Trace.parameters_apart query ->
   Trace.paged limit (client s) (sent σ) ->
   Trace.paged limit (client s) (sent σ')).
Proof.
  revert query t resp result σ.
  induction fuel as [|fuel IH]; intros query t resp result σ Hc Ha Ht Hrun;
    [discriminate|].
  destruct (Z_le_gt_dec t 0) as [Hle|Hgt].
  { rewrite loop_done in Hrun by done. by simplify_eq. }
  destruct (Z.eq_dec (nextPage resp) 0) as [Hz|Hnz].
  { rewrite loop_break in Hrun by done. by simplify_eq. }
  rewrite loop_step in Hrun by (done || lia).
  set (query' := Trace.paging query (min t maxPerPage) (nextPage resp)) in *.
  destruct (search_trace s query' σ) as [(msg & Hr & Hs)|(q & Hr & Hs)];
    simpl in Hr, Hs.
  - rewrite Hr in Hrun. simplify_eq. simpl. rewrite Hs.
    split; [done|]. split; [|done]. left. eauto.
  - set (req := Trace.request_of _ query' q) in *.
    assert (Trace.parameters_apart query ->
            Trace.per_page req = Some (min t maxPerPage)) as Hpp.
    { intros Hk. apply (TraceFacts.per_page_request _ query' q); [exact Hk|].
      simpl. pose proof (min_page_size t). lia. }
    destruct (Trace.receive req (client s (sent σ) req))
      as [[resp' page] [err|]] eqn:Hrecv; rewrite Hr in Hrun.
    + simplify_eq. simpl. rewrite Hs.
      pose proof (TraceFacts.receive_error _ _ _ _ _ Hrecv) as Hf.
      split; [|split].
      * destruct Hc as [H1 H2].
        split; rewrite ?(TraceFacts.merged_failure _ _ _ Hf); done.
      * right. exists req, (sent σ). by rewrite Hrecv.
      * intros Hk Hp. simpl. split; [|done]. by rewrite Hpp.
    + pose proof (TraceFacts.receive_page _ _ _ _ Hrecv) as Hpage.
      eapply IH in Hrun.
      * destruct Hrun as (R1 & R2 & R3). split; [exact R1|]. split; [exact R2|].
        intros Hk Hp. apply R3; [exact Hk|]. rewrite Hs. simpl.
        split; [|done]. by rewrite Hpp, Ht.
      * rewrite Hs. destruct Hc as [H1 H2].
        split; rewrite ?(TraceFacts.merged_page _ _ _ _ Hpage).
        -- simpl. by rewrite TraceFacts.items_of_snoc, H1.
        -- simpl. by rewrite TraceFacts.summary_snoc.
      * rewrite Hs. simpl. split; [|done]. by rewrite Hpage.
      * rewrite Hs, (TraceFacts.retrieved_page _ _ _ _ Hpage). lia.
Qed.

(** The loop sends a request only after a response that names a next
    page. *)
Lemma loop_linked fuel s query t resp result σ out σ' :
  resp = Trace.last_response (client s) (sent σ) ->
  Trace.linked (client s) (sent σ) ->
  loop fuel s query t resp result σ = (Some out, σ') ->
  Trace.linked (client s) (sent σ').
Proof.
  revert query t resp result σ.
  induction fuel as [|fuel IH]; intros query t resp result σ Hresp Hl Hrun;
    [discriminate|].
  destruct (Z_le_gt_dec t 0) as [Hle|Hgt].
  { rewrite loop_done in Hrun by done. by simplify_eq. }
  destruct (Z.eq_dec (nextPage resp) 0) as [Hz|Hnz].
  { rewrite loop_break in Hrun by done. by simplify_eq. }
  rewrite loop_step in Hrun by (done || lia).
  set (query' := Trace.paging query (min t maxPerPage) (nextPage resp)) in *.
  destruct (search_trace s query' σ) as [(msg & Hr & Hs)|(q & Hr & Hs)];
    simpl in Hr, Hs.
  - rewrite Hr in Hrun. simplify_eq. by rewrite Hs.
  - set (req := Trace.request_of _ query' q) in *.
    assert (Trace.linked (client s) (req :: sent σ)) as Hl'.
    { simpl. split; [by rewrite <- Hresp|done]. }
    destruct (Trace.receive req (client s (sent σ) req))
      as [[resp' page] [err|]] eqn:Hrecv; rewrite Hr in Hrun.
    + simplify_eq. by rewrite Hs.
    + eapply IH in Hrun; [done| |by rewrite Hs].
      rewrite Hs. simpl. by rewrite Hrecv.
Qed.

(** A whole fetch that starts on a fresh connection. *)
Lemma Repositories_consistent fuel s query σ out σ' :
  sent σ = [] ->
  Repositories RESTPrefix mapOrder parseError fuel s query σ = (Some out, σ') ->
  Trace.consistent (client s) (sent σ') out.1 /\
  match out.2 with
  | None => Trace.all_pages (client s) (sent σ')
  | Some err => Trace.stopped_by (client s) (sent σ') err
  end /\
  (Trace.parameters_apart query ->
   Trace.paged (search.Limit query) (client s) (sent σ')).
Proof.
  intros Hs Hrun. unfold Repositories in Hrun.
  eapply (loop_consistent (search.Limit query)) in Hrun.
  - destruct Hrun as (R1 & R2 & R3). split; [exact R1|]. split; [exact R2|].
    intros Hk. apply R3; [exact Hk|]. by rewrite Hs.
  - rewrite Hs. by split.
  - by rewrite Hs.
  - rewrite Hs. unfold Trace.retrieved. simpl. lia.
Qed.

End LoopFacts.

(** ** Fetching: what a run of [Repositories] guarantees *)

Section Fetching.

Variable RESTPrefix : string -> string.
Variable mapOrder : nat -> forall A : Type, list (string * A) -> list (string * A).
Variable parseError : string -> option string.

Abbreviation fetch := (Repositories RESTPrefix mapOrder parseError).
Abbreviation fetch_loop := (Repositories_loop RESTPrefix mapOrder parseError).


(** C8, as the code has it.  When a fetch on a fresh connection succeeds
    against a server that never sends more items than the page size
    asked for, the result holds at most [limit] items; whatever the
    server, its total and its flag are those of the page brought back by
    the latest request. *)
Theorem Repositories_result_within_limit fuel s query σ result σ' :
  sent σ = [] ->
  fetch fuel s query σ = (Some (result, None), σ') ->
  (Trace.parameters_apart query -> Trace.honours_per_page (client s) ->
   0 <= search.Limit query ->
   Z.of_nat (length (search.Items result)) <= search.Limit query) /\
  (forall req earlier,
      sent σ' = req :: earlier ->
      exists page,
        Trace.page_of req (client s earlier req) = Some page /\
        search.Total result = search.Total page /\
        search.IncompleteResults result = search.IncompleteResults page).
Proof.
  intros Hs Hrun.
  destruct (Repositories_consistent _ _ _ _ _ _ _ _ _ Hs Hrun) as ([Hi Hsum] & Ha & Hp).
  simpl in Hi, Hsum, Ha. split.
  - intros Hk Hc Hl. rewrite Hi.
    apply (TraceFacts.retrieved_le_limit _ _ _ Hc Hl (Hp Hk)).
  - intros req earlier Hl. rewrite Hl in Ha, Hsum.
    destruct Ha as [[page Hpage] _]. exists page. split; [done|].
    rewrite (TraceFacts.merged_page _ _ _ _ Hpage), TraceFacts.summary_snoc in Hsum.
    by simplify_eq.
Qed.

(** One turn of the loop against a server of full pages. *)
Lemma full_page_step fuel s query t resp result σ :
  (forall u, parseError u = None) ->
  Trace.parameters_apart query ->
  Server.full_pages (client s) ->
  0 < t -> nextPage resp <> 0 ->
  exists resp' page σ1 req,
    fetch_loop (S fuel) s query t resp result σ
    = fetch_loop fuel s (Trace.paging query (min t maxPerPage) (nextPage resp))
        (t - min t maxPerPage) (Some resp') (Trace.merge result page) σ1 /\
    sent σ1 = req :: sent σ /\
    Trace.per_page req = Some (min t maxPerPage) /\
    Z.of_nat (length (search.Items page)) = min t maxPerPage /\
    (min t maxPerPage = maxPerPage -> nextPage (Some resp') <> 0).
Proof.
  intros Hpe Hk Hfull Ht Hnz.
  rewrite loop_step by done.
  set (query' := Trace.paging query (min t maxPerPage) (nextPage resp)).
  destruct (search_sends RESTPrefix mapOrder parseError s query' σ Hpe)
    as (q & Hr & Hs). simpl in Hr, Hs.
  set (req := Trace.request_of _ query' q) in *.
  assert (Trace.per_page req = Some (min t maxPerPage)) as Hpp.
  { apply (TraceFacts.per_page_request _ query' q); [exact Hk|].
    simpl. pose proof (min_page_size t). lia. }
  destruct (Hfull (sent σ) req _ Hpp) as (resp' & page & Hrecv & Hlen & Hnext).
  exists resp', page, (search_ RESTPrefix mapOrder parseError s query' σ).2, req.
  rewrite Hr, Hrecv, Hlen. done.
Qed.

(** C2.  With a limit of 250 and a server of full pages, a fetch on a
    fresh connection sends exactly three requests, asking for 100, 100
    and 50 items in that order, and returns 250 items without an error.
    Whatever the server, every request of a fetch asks for the smaller of
    100 and the limit less the number of items that the pages before it
    really held, and no request follows a response that names no next
    page. *)
Theorem Repositories_page_sizes s query σ :
  sent σ = [] ->
  Trace.parameters_apart query ->
  ((forall u, parseError u = None) ->
   Server.full_pages (client s) ->
   search.Limit query = 250 ->
   forall fuel, (4 <= fuel)%nat ->
     exists result σ',
       fetch fuel s query σ = (Some (result, None), σ') /\
       Trace.per_page <$> rev (sent σ') = [Some 100; Some 100; Some 50] /\
       length (search.Items result) = 250%nat) /\
  (forall fuel out σ',
      fetch fuel s query σ = (Some out, σ') ->
      Trace.paged (search.Limit query) (client s) (sent σ') /\
      Trace.linked (client s) (sent σ')).
Proof.
  intros Hs Hk. split.
  - intros Hpe Hfull Hl fuel Hfuel.
    destruct fuel as [|[|[|[|fuel]]]]; try lia.
    unfold Repositories. rewrite Hl.
    destruct (full_page_step (S (S (S fuel))) s query 250 None search.empty_result σ
                Hpe Hk Hfull) as (r1 & p1 & σ1 & q1 & E1 & S1 & P1 & L1 & N1);
      [lia|done|].
    rewrite E1. change (min 250 maxPerPage) with 100 in *.
    change (250 - 100) with 150.
    destruct (full_page_step (S (S fuel)) s (Trace.paging query 100 (nextPage None))
                150 (Some r1) (Trace.merge search.empty_result p1) σ1
                Hpe Hk Hfull) as (r2 & p2 & σ2 & q2 & E2 & S2 & P2 & L2 & N2);
      [lia|by apply N1|].
    rewrite E2. change (min 150 maxPerPage) with 100 in *.
    change (150 - 100) with 50.
    destruct (full_page_step (S fuel) s
                (Trace.paging (Trace.paging query 100 (nextPage None)) 100
                   (nextPage (Some r1)))
                50 (Some r2)
                (Trace.merge (Trace.merge search.empty_result p1) p2) σ2
                Hpe Hk Hfull) as (r3 & p3 & σ3 & q3 & E3 & S3 & P3 & L3 & N3);
      [lia|by apply N2|].
    rewrite E3. change (min 50 maxPerPage) with 50 in *.
    change (50 - 50) with 0.
    rewrite loop_done by lia.
    eexists _, _. split; [reflexivity|].
    rewrite S3, S2, S1, Hs. simpl. rewrite P1, P2, P3. split; [done|].
    rewrite !length_app. simpl. lia.
  - intros fuel out σ' Hrun. split.
    + by apply (Repositories_consistent _ _ _ _ _ _ _ _ _ Hs Hrun).
    + unfold Repositories in Hrun.
      eapply loop_linked in Hrun; [done|by rewrite Hs|by rewrite Hs].
Qed.




End Fetching.

(** ** The example servers *)

Module ExampleFacts.
Import Examples.

Lemma digits_value_nonneg s acc :
  strconv.all_digits s = true -> 0 <= acc -> 0 <= strconv.digits_value acc s.
Proof.
  revert acc. induction s as [|c s IH]; intros acc Hd Hacc; [done|].
  simpl in *. apply andb_prop in Hd as [Hc Hs]. apply IH; [done|].
  unfold Bytes.is_digit in Hc. apply andb_prop in Hc as [Hlo _].
  apply Nat.leb_le in Hlo. unfold Bytes.digit_val. lia.
Qed.

Lemma Atoi_nonneg s n : strconv.Atoi s = Some n -> 0 <= n.
Proof.
  unfold strconv.Atoi. destruct s as [|c s]; [done|].
  destruct (strconv.all_digits (String c s)) eqn:Hd; [|done].
  intros H. case_match; [|done]. simplify_eq.
  by apply digits_value_nonneg.
Qed.

Lemma request_int_per_page req n :
  Trace.per_page req = Some n -> request_int req "per_page" = n.
Proof. unfold Trace.per_page, request_int. by intros ->. Qed.

Lemma length_items n : 0 <= n -> Z.of_nat (length (items n)) = n.
Proof. intros H. unfold items. rewrite length_fmap, length_seq. lia. Qed.

Lemma full_pages_full : Server.full_pages full_pages.
Proof.
  intros earlier req n Hpp. unfold full_pages.
  rewrite (request_int_per_page _ _ Hpp).
  eexists _, _. split; [reflexivity|]. split.
  - simpl. apply length_items. unfold Trace.per_page in Hpp.
    by apply Atoi_nonneg in Hpp.
  - intros _. vm_compute. discriminate.
Qed.

Lemma full_pages_honours : Trace.honours_per_page full_pages.
Proof.
  intros earlier req n page Hpp Hpage.
  destruct (full_pages_full earlier req n Hpp) as (resp & page' & Hr & Hl & _).
  unfold Trace.page_of in Hpage. rewrite Hr in Hpage. simplify_eq. lia.
Qed.


Lemma single_page_progress : Server.makes_progress single_page.
Proof.
  intros earlier req resp page H. left.
  unfold single_page in H. cbv in H. by simplify_eq.
Qed.

Lemma query_parameters limit : Trace.parameters_apart (query limit).
Proof. split; discriminate. Qed.

End ExampleFacts.

Lemma Repositories_page_sizes_witness :
  exists result σ',
    Repositories Examples.prefix Examples.in_order Examples.accepts_all 4
      (Examples.searcher_of Examples.full_pages) (Examples.query 250) Examples.start
    = (Some (result, None), σ') /\
    Trace.per_page <$> rev (sent σ') = [Some 100; Some 100; Some 50] /\
    length (search.Items result) = 250%nat.
Proof.
  apply (proj1 (Repositories_page_sizes Examples.prefix Examples.in_order
                  Examples.accepts_all (Examples.searcher_of Examples.full_pages)
                  (Examples.query 250) Examples.start eq_refl
                  (ExampleFacts.query_parameters 250))).
  - reflexivity.
  - apply ExampleFacts.full_pages_full.
  - reflexivity.
  - lia.
Defined.




(** With a limit of 1, a server that sends five items whatever the page
    size makes a successful fetch return five items. *)
Lemma Repositories_result_over_limit :
  exists result σ',
    Repositories Examples.prefix Examples.in_order Examples.accepts_all 4
      (Examples.searcher_of Examples.oversized_page) (Examples.query 1)
      Examples.start
    = (Some (result, None), σ') /\
    length (search.Items result) = 5%nat /\
    search.Limit (Examples.query 1) = 1.
Proof.
  eexists _, _. split; [vm_compute; reflexivity|]. split; reflexivity.
Qed.

Lemma full_pages_fetch_30 :
  exists result σ',
    Repositories Examples.prefix Examples.in_order Examples.accepts_all 4
      (Examples.searcher_of Examples.full_pages) (Examples.query 30)
      Examples.start
    = (Some (result, None), σ').
Proof. eexists _, _. vm_compute. reflexivity. Qed.

Lemma Repositories_result_within_limit_witness :
  exists result σ',
    Repositories Examples.prefix Examples.in_order Examples.accepts_all 4
      (Examples.searcher_of Examples.full_pages) (Examples.query 30)
      Examples.start
    = (Some (result, None), σ') /\
    Z.of_nat (length (search.Items result)) <= 30.
Proof.
  destruct full_pages_fetch_30 as (result & σ' & Hrun).
  destruct (Repositories_result_within_limit Examples.prefix Examples.in_order
              Examples.accepts_all 4 (Examples.searcher_of Examples.full_pages)
              (Examples.query 30) Examples.start result σ' eq_refl Hrun)
    as [Hlen _].
  exists result, σ'. split; [exact Hrun|].
  apply Hlen.
  - apply ExampleFacts.query_parameters.
  - apply ExampleFacts.full_pages_honours.
  - simpl. lia.
Defined.


(** ** Keywords are quoted in place *)

Module SliceFacts.
Import search.
Local Open Scope nat_scope.

Lemma assign_array ks i v σ :
  Slice.array (heap (Slice.assign ks i v σ).2) (s_arr ks)
  = <[s_off ks + i := v]> (Slice.array (heap σ) (s_arr ks)).
Proof.
  unfold Slice.assign, Slice.array. simpl. rewrite lookup_alter_eq.
  by destruct (heap σ !! s_arr ks).
Qed.

Lemma for_range_array ks idx σ :
  Slice.array
    (heap (for_range idx
             (fun i => k ← Slice.index ks i; Slice.assign ks i (quoteKeyword k)) σ).2)
    (s_arr ks)
  = quoted_at (s_off ks) idx (Slice.array (heap σ) (s_arr ks)).
Proof.
  revert σ. induction idx as [|i idx IH]; intros σ; [done|].
  simpl. rewrite bind_run, IH, bind_run. by rewrite assign_array.
Qed.

Lemma length_quoted_at off idx a : length (quoted_at off idx a) = length a.
Proof.
  revert a. induction idx as [|i idx IH]; intros a; [done|].
  simpl. by rewrite IH, length_insert.
Qed.

Lemma lookup_quoted_at off n a j :
  off + n <= length a ->
  quoted_at off (seq 0 n) a !! j
  = if decide (off <= j < off + n) then quoteKeyword <$> a !! j else a !! j.
Proof.
  intros Hn. induction n as [|n IH].
  - simpl. case_decide; [lia|done].
  - rewrite seq_S. unfold quoted_at. rewrite foldl_app. simpl.
    fold (quoted_at off (seq 0 n) a).
    destruct (decide (j = off + n)) as [->|Hne].
    + rewrite list_lookup_insert_eq by (rewrite length_quoted_at; lia).
      rewrite IH by lia. rewrite decide_False by lia.
      rewrite decide_True by lia.
      destruct (a !! (off + n)) eqn:E; [done|].
      apply lookup_ge_None in E. lia.
    + rewrite list_lookup_insert_ne by done. rewrite IH by lia.
      repeat case_decide; (done || lia).
Qed.

(** After [quoteKeywords] every element seen through the slice is the
    quoted form of what was there before. *)
Lemma quoteKeywords_elems ks σ :
  Slice.wf (heap σ) ks ->
  Slice.elems (heap (quoteKeywords ks σ).2) ks
  = quoteKeyword <$> Slice.elems (heap σ) ks.
Proof.
  unfold Slice.wf, Slice.elems, quoteKeywords. intros Hwf.
  rewrite bind_run. simpl. rewrite for_range_array.
  apply list_eq. intros j. rewrite list_lookup_fmap.
  destruct (decide (j < s_len ks)) as [Hj|Hj].
  - rewrite !lookup_take_lt, !lookup_drop by done.
    rewrite lookup_quoted_at by done. by rewrite decide_True by lia.
  - by rewrite !lookup_take_ge by lia.
Qed.

End SliceFacts.

Section Aliasing.

Variable mapOrder : nat -> forall A : Type, list (string * A) -> list (string * A).

Lemma QueryString_heap query σ :
  heap (QueryString mapOrder query σ).2
  = heap (quoteKeywords (search.Keywords query) σ).2.
Proof. unfold QueryString. rewrite !bind_run. reflexivity. Qed.

(** Rendering a query leaves the quoted keywords in the caller's array. *)
Lemma QueryString_rewrites_keywords query σ :
  Slice.wf (heap σ) (search.Keywords query) ->
  Slice.elems (heap (QueryString mapOrder query σ).2) (search.Keywords query)
  = quoteKeyword <$> Slice.elems (heap σ) (search.Keywords query).
Proof.
  intros Hwf. rewrite QueryString_heap. by apply SliceFacts.quoteKeywords_elems.
Qed.

Lemma URL_rewrites_keywords s query σ :
  Slice.wf (heap σ) (search.Keywords query) ->
  Slice.elems (heap (URL mapOrder s query σ).2) (search.Keywords query)
  = quoteKeyword <$> Slice.elems (heap σ) (search.Keywords query).
Proof.
  intros Hwf. unfold URL. rewrite bind_run. simpl.
  by apply QueryString_rewrites_keywords.
Qed.

End Aliasing.

(** C4 does not hold of the code: [quoteKeywords] writes each quoted
    keyword back through the slice it was given.  After one rendering of
    the example query, whose caller holds the keywords [foo bar] and
    [cli], the caller's array holds the quoted form of the first keyword,
    after [QueryString] as well as after [URL], and a second rendering
    quotes it again and so returns another string. *)
Theorem QueryString_overwrites_keywords :
  let once := QueryString Examples.in_order (Examples.query 30) Examples.start in
  let twice := QueryString Examples.in_order (Examples.query 30) once.2 in
  let url := URL Examples.in_order (Examples.searcher_of Examples.full_pages)
               (Examples.query 30) Examples.start in
  Slice.elems (heap Examples.start) Examples.keywords = ["foo bar"; "cli"] /\
  Slice.elems (heap once.2) Examples.keywords
  = [Examples.dq +:+ "foo bar" +:+ Examples.dq; "cli"] /\
  Slice.elems (heap url.2) Examples.keywords
  = [Examples.dq +:+ "foo bar" +:+ Examples.dq; "cli"] /\
  once.1 = Examples.dq +:+ "foo bar" +:+ Examples.dq +:+ " cli stars:>100 language:go" /\
  twice.1 <> once.1.
Proof.
  repeat split; try (vm_compute; reflexivity).
  vm_compute. discriminate.
Qed.

(** C3 does not hold of the code: [QueryString] walks the map built by
    [listSet] with [range], whose order the runtime picks.  Two runtimes
    that both visit every entry once render the example query, which has
    two qualifiers set, as two different strings. *)
Theorem QueryString_depends_on_map_order :
  visits_every_entry Examples.in_order /\
  visits_every_entry Examples.reversed /\
  (QueryString Examples.in_order (Examples.query 30) Examples.start).1
  = Examples.dq +:+ "foo bar" +:+ Examples.dq +:+ " cli stars:>100 language:go" /\
  (QueryString Examples.reversed (Examples.query 30) Examples.start).1
  = Examples.dq +:+ "foo bar" +:+ Examples.dq +:+ " cli language:go stars:>100".
Proof.
  split; [intros n A l; reflexivity|].
  split; [intros n A l; symmetry; apply Permutation_rev|].
  split; vm_compute; reflexivity.
Qed.
(** ** Further properties of a fetch *)

Section FetchBudget.

Variable RESTPrefix : string -> string.
Variable mapOrder : nat -> forall A : Type, list (string * A) -> list (string * A).
Variable parseError : string -> option string.

Abbreviation run_loop := (Repositories_loop RESTPrefix mapOrder parseError).
Abbreviation run_search := (search_ RESTPrefix mapOrder parseError).

(** One [search_] sends at most one request. *)
Lemma search_sends_at_most_one s query σ :
  sent (run_search s query σ).2 = sent σ \/
  exists req, sent (run_search s query σ).2 = req :: sent σ.
Proof.
  destruct (search_trace RESTPrefix mapOrder parseError s query σ)
    as [(msg & _ & Hs)|(q & _ & Hs)]; simpl in Hs; eauto.
Qed.

(** Against a server that makes progress, the loop sends at most as many
    requests as items are still wanted, and none after a response that
    names no next page. *)
Lemma loop_budget fuel s query t resp result σ out σ' :
  Server.makes_progress (client s) ->
  run_loop fuel s query t resp result σ = (Some out, σ') ->
  exists sent_now,
    sent σ' = sent_now ++ sent σ /\
    (length sent_now <= if decide (nextPage resp = 0%Z) then 0%nat else Z.to_nat t)%nat.
Proof.
  intros Hc. revert query t resp result σ.
  induction fuel as [|fuel IH]; intros query t resp result σ Hrun; [discriminate|].
  destruct (Z_le_gt_dec t 0) as [Hle|Hgt].
  { rewrite loop_done in Hrun by done. simplify_eq. exists []. split; [done|].
    simpl. lia. }
  destruct (Z.eq_dec (nextPage resp) 0) as [Hz|Hnz].
  { rewrite loop_break in Hrun by done. simplify_eq. exists []. split; [done|].
    simpl. lia. }
  rewrite decide_False by done.
  rewrite loop_step in Hrun by (done || lia).
  set (query' := Trace.paging query (min t maxPerPage) (nextPage resp)) in *.
  destruct (search_trace RESTPrefix mapOrder parseError s query' σ)
    as [(msg & Hr & Hs)|(q & Hr & Hs)]; simpl in Hr, Hs.
  - rewrite Hr in Hrun. simplify_eq. exists []. split; [done|]. simpl. lia.
  - set (req := Trace.request_of _ query' q) in *.
    destruct (Trace.receive req (client s (sent σ) req))
      as [[resp' page] [err|]] eqn:Hrecv; rewrite Hr in Hrun.
    + simplify_eq. exists [req]. split; [done|]. simpl. lia.
    + apply IH in Hrun as (more & Hsent & Hlen). rewrite Hs in Hsent.
      exists (more ++ [req]). split; [by rewrite <- app_assoc|].
      rewrite length_app. simpl.
      destruct (Hc _ _ _ _ Hrecv) as [Hitems|Hlast].
      * case_decide; [lia|].
        destruct (search.Items page); [done|]. simpl length in Hlen. lia.
      * rewrite decide_True in Hlen by done. lia.
Qed.

(** X1.  A fetch with a limit of zero or less sends nothing and returns
    an empty result without an error.  Against a server whose every page
    holds an item or names no next page, a fetch that returns has sent
    at most [limit] requests. *)
Theorem Repositories_request_budget s query σ :
  (search.Limit query <= 0 ->
   forall fuel,
     Repositories RESTPrefix mapOrder parseError (S fuel) s query σ
     = (Some (search.empty_result, None), σ)) /\
  (Server.makes_progress (client s) ->
   forall fuel out σ',
     Repositories RESTPrefix mapOrder parseError fuel s query σ = (Some out, σ') ->
     exists sent_now,
       sent σ' = sent_now ++ sent σ /\
       (length sent_now <= Z.to_nat (search.Limit query))%nat).
Proof.
  split.
  - intros H fuel. unfold Repositories. by apply loop_done.
  - intros Hc fuel out σ' Hrun. unfold Repositories in Hrun.
    apply loop_budget in Hrun as (l & Hs & Hl); [|done].
    exists l. split; [done|]. by rewrite decide_False in Hl.
Qed.

End FetchBudget.

Lemma Repositories_request_budget_witness :
  Repositories Examples.prefix Examples.in_order Examples.accepts_all 1
    (Examples.searcher_of Examples.single_page) (Examples.query 0) Examples.start
  = (Some (search.empty_result, None), Examples.start) /\
  exists out σ',
    Repositories Examples.prefix Examples.in_order Examples.accepts_all 4
      (Examples.searcher_of Examples.single_page) (Examples.query 30) Examples.start
    = (Some out, σ') /\
    exists sent_now,
      sent σ' = sent_now ++ sent Examples.start /\
      (length sent_now <= Z.to_nat 30)%nat.
Proof.
  split.
  - apply (proj1 (Repositories_request_budget Examples.prefix Examples.in_order
                    Examples.accepts_all (Examples.searcher_of Examples.single_page)
                    (Examples.query 0) Examples.start)).
    change (0 <= 0). lia.
  - eexists _, _. split; [vm_compute; reflexivity|].
    eapply (proj2 (Repositories_request_budget Examples.prefix Examples.in_order
                    Examples.accepts_all (Examples.searcher_of Examples.single_page)
                    (Examples.query 30) Examples.start)
             ExampleFacts.single_page_progress 4%nat).
    vm_compute. reflexivity.
Defined.
(** ** What a successful fetch has merged *)

Lemma page_of_answered c earlier req page :
  Trace.page_of req (c earlier req) = Some page ->
  answered_with_page c earlier req page.
Proof.
  unfold Trace.page_of, Trace.receive, answered_with_page.
  destruct (c earlier req) as [e|reply]; [done|].
  unfold http.StatusCode, http.Body_. simpl.
  destruct (200 <=? http.r_StatusCode reply) eqn:E1;
    destruct (http.r_StatusCode reply <? 300) eqn:E2; simpl; try done.
  destruct (http.r_Body reply) as [msg|msg|o] eqn:Hb; simpl; try done.
  intros [= <-]. exists reply, o. repeat split; (done || lia).
Qed.

Lemma all_pages_suffix c later l :
  Trace.all_pages c (later ++ l) -> Trace.all_pages c l.
Proof. induction later as [|r later IH]; [done|]. intros [_ H]. by apply IH. Qed.

Section FetchPages.

Variable RESTPrefix : string -> string.
Variable mapOrder : nat -> forall A : Type, list (string * A) -> list (string * A).
Variable parseError : string -> option string.

(** X2.  When a fetch on a fresh connection succeeds, every request it
    sent was answered with a status from 200 to 299 and a body that
    decodes to a page, and the items returned are those of all these
    pages, in the order in which the pages were asked for. *)
Theorem Repositories_merges_every_page fuel s query σ result σ' :
  sent σ = [] ->
  Repositories RESTPrefix mapOrder parseError fuel s query σ
  = (Some (result, None), σ') ->
  search.Items result = Trace.items_of (Trace.merged (client s) (sent σ')) /\
  length (Trace.merged (client s) (sent σ')) = length (sent σ') /\
  forall later req earlier,
    sent σ' = later ++ req :: earlier ->
    exists page,
      answered_with_page (client s) earlier req page /\
      Trace.merged (client s) (req :: earlier)
      = Trace.merged (client s) earlier ++ [page].
Proof.
  intros Hs Hrun.
  destruct (Repositories_consistent _ _ _ _ _ _ _ _ _ Hs Hrun) as ([Hi _] & Ha & _).
  simpl in Hi, Ha. split; [done|]. split.
  - clear Hi. induction (sent σ') as [|req l IH]; [done|].
    destruct Ha as [[page Hp] Ha]. simpl. rewrite Hp, length_app, IH by done.
    simpl. lia.
  - intros later req earlier Hl. rewrite Hl in Ha.
    apply all_pages_suffix in Ha as [[page Hp] _].
    exists page. split; [by apply page_of_answered|].
    by apply TraceFacts.merged_page.
Qed.

End FetchPages.

Lemma Repositories_merges_every_page_witness :
  exists result σ',
    Repositories Examples.prefix Examples.in_order Examples.accepts_all 4
      (Examples.searcher_of Examples.single_page) (Examples.query 30) Examples.start
    = (Some (result, None), σ') /\
    search.Items result
    = Trace.items_of (Trace.merged Examples.single_page (sent σ')).
Proof.
  eexists _, _. split; [vm_compute; reflexivity|].
  eapply (Repositories_merges_every_page Examples.prefix Examples.in_order
            Examples.accepts_all 4 (Examples.searcher_of Examples.single_page)
            (Examples.query 30) Examples.start).
  - reflexivity.
  - vm_compute. reflexivity.
Defined.
(** ** The requests of a fetch *)

Section FetchRequests.

Variable RESTPrefix : string -> string.
Variable mapOrder : nat -> forall A : Type, list (string * A) -> list (string * A).
Variable parseError : string -> option string.

Abbreviation the_loop := (Repositories_loop RESTPrefix mapOrder parseError).

Lemma loop_addressed path fuel s query t resp result σ out σ' :
  path = RESTPrefix (host s) +:+ "search/" +:+ search.Kind query ->
  Forall (addressed_to path) (sent σ) ->
  the_loop fuel s query t resp result σ = (Some out, σ') ->
  Forall (addressed_to path) (sent σ').
Proof.
  intros Hpath. revert query t resp result σ Hpath.
  induction fuel as [|fuel IH]; intros query t resp result σ Hpath Hall Hrun;
    [discriminate|].
  destruct (Z_le_gt_dec t 0) as [Hle|Hgt].
  { rewrite loop_done in Hrun by done. by simplify_eq. }
  destruct (Z.eq_dec (nextPage resp) 0) as [Hz|Hnz].
  { rewrite loop_break in Hrun by done. by simplify_eq. }
  rewrite loop_step in Hrun by (done || lia).
  set (query' := Trace.paging query (min t maxPerPage) (nextPage resp)) in *.
  destruct (search_trace RESTPrefix mapOrder parseError s query' σ)
    as [(msg & Hr & Hs)|(q & Hr & Hs)]; simpl in Hr, Hs.
  - rewrite Hr in Hrun. simplify_eq. by rewrite Hs.
  - set (req := Trace.request_of _ query' q) in *.
    assert (Forall (addressed_to path) (req :: sent σ)) as Hall'.
    { constructor; [|done]. by rewrite Hpath. }
    destruct (Trace.receive req (client s (sent σ) req))
      as [[resp' page] [err|]] eqn:Hrecv; rewrite Hr in Hrun.
    + simplify_eq. by rewrite Hs.
    + eapply IH in Hrun; [done|done|by rewrite Hs].
Qed.

(** X3.  Every request that a fetch on a fresh connection sends is a GET
    of the search endpoint of the query's kind on the host of the
    searcher, and carries the content type and the accept header of the
    API. *)
Theorem Repositories_requests_addressed fuel s query σ out σ' :
  sent σ = [] ->
  Repositories RESTPrefix mapOrder parseError fuel s query σ = (Some out, σ') ->
  Forall (addressed_to (RESTPrefix (host s) +:+ "search/" +:+ search.Kind query))
    (sent σ') /\
  request_headers !! "Accept" = Some "application/vnd.github.v3+json" /\
  request_headers !! "Content-Type" = Some "application/json; charset=utf-8".
Proof.
  intros Hs Hrun. split; [|split; reflexivity].
  unfold Repositories in Hrun.
  eapply loop_addressed in Hrun; [done|done|by rewrite Hs].
Qed.

(** The loop against a server of full pages, whatever is still wanted. *)
Lemma loop_full_pages fuel s query t resp result σ :
  (forall u, parseError u = None) ->
  Trace.parameters_apart query ->
  Server.full_pages (client s) ->
  0 <= t -> (0 < t -> nextPage resp <> 0) ->
  (Z.to_nat ((t + 99) / 100) < fuel)%nat ->
  exists result' σ' sent_now,
    the_loop fuel s query t resp result σ = (Some (result', None), σ') /\
    sent σ' = sent_now ++ sent σ /\
    Z.of_nat (length sent_now) = (t + 99) / 100 /\
    Z.of_nat (length (search.Items result'))
    = Z.of_nat (length (search.Items result)) + t.
Proof.
  intros Hpe Hk Hfull. revert query t resp result σ Hk.
  induction fuel as [|fuel IH]; intros query t resp result σ Hk Ht Hnext Hfuel; [lia|].
  destruct (Z.eq_dec t 0) as [->|Hpos].
  { rewrite loop_done by lia. exists result, σ, []. repeat split; first [reflexivity | lia]. }
  destruct (full_page_step RESTPrefix mapOrder parseError fuel s query t resp result σ
              Hpe Hk Hfull) as (resp' & page & σ1 & req & E & S1 & _ & L1 & N1);
    [lia|apply Hnext; lia|].
  rewrite E.
  assert ((t < 100 /\ min t maxPerPage = t) \/
          (100 <= t /\ min t maxPerPage = 100)) as Hmin.
  { unfold min, maxPerPage. destruct (t <? 100) eqn:Et; lia. }
  assert ((t - min t maxPerPage + 99) / 100 = (t + 99) / 100 - 1) as Hdiv.
  { destruct Hmin as [[Hlt ->]|[Hge ->]].
    - replace (t - t + 99) with 99 by lia. change (99 / 100) with 0.
      assert ((t + 99) / 100 = 1); [|lia].
      symmetry. apply Z.div_unique with (r := t - 1); lia.
    - replace (t + 99) with (t - 100 + 99 + 1 * 100) by lia.
      rewrite Z.div_add by lia. lia. }
  assert (1 <= (t + 99) / 100) as Hone.
  { apply Z.div_le_lower_bound; lia. }
  destruct (IH (Trace.paging query (min t maxPerPage) (nextPage resp))
              (t - min t maxPerPage) (Some resp') (Trace.merge result page) σ1)
    as (result' & σ' & more & Hrun & Hsent & Hlen & Hitems).
  - exact Hk.
  - lia.
  - intros Hrest. apply N1. destruct Hmin as [[? ?]|[? Hm]]; [lia|exact Hm].
  - rewrite Hdiv. lia.
  - exists result', σ', (more ++ [req]). split; [done|].
    split; [by rewrite Hsent, S1, <- app_assoc|].
    split.
    + rewrite length_app. simpl. rewrite Nat2Z.inj_add, Hlen, Hdiv. lia.
    + rewrite Hitems. simpl. rewrite length_app. lia.
Qed.

(** X4.  Against a server that fills every page asked for and names a
    next page after every full one, a fetch with a limit that is not
    negative returns without an error exactly [limit] items, after
    exactly [limit / 100] requests, rounded up. *)
Theorem Repositories_full_pages s query σ :
  (forall u, parseError u = None) ->
  Trace.parameters_apart query ->
  Server.full_pages (client s) ->
  0 <= search.Limit query ->
  forall fuel, (Z.to_nat ((search.Limit query + 99) / 100) < fuel)%nat ->
    exists result σ' sent_now,
      Repositories RESTPrefix mapOrder parseError fuel s query σ
      = (Some (result, None), σ') /\
      sent σ' = sent_now ++ sent σ /\
      Z.of_nat (length sent_now) = (search.Limit query + 99) / 100 /\
      Z.of_nat (length (search.Items result)) = search.Limit query.
Proof.
  intros Hpe Hk Hfull Hl fuel Hfuel. unfold Repositories.
  destruct (loop_full_pages fuel s query (search.Limit query) None
              search.empty_result σ Hpe Hk Hfull Hl)
    as (result & σ' & l & Hrun & Hs & Hn & Hi); [done|done|].
  exists result, σ', l. by rewrite Hrun.
Qed.

End FetchRequests.

Lemma Repositories_requests_addressed_witness :
  exists out σ',
    Repositories Examples.prefix Examples.in_order Examples.accepts_all 4
      (Examples.searcher_of Examples.full_pages) (Examples.query 250) Examples.start
    = (Some out, σ') /\
    Forall (addressed_to "https://api.github.com/search/repositories") (sent σ').
Proof.
  eexists _, _. split; [vm_compute; reflexivity|].
  eapply (Repositories_requests_addressed Examples.prefix Examples.in_order
            Examples.accepts_all 4 (Examples.searcher_of Examples.full_pages)
            (Examples.query 250) Examples.start).
  - reflexivity.
  - vm_compute. reflexivity.
Defined.

Lemma Repositories_full_pages_witness :
  exists result σ' sent_now,
    Repositories Examples.prefix Examples.in_order Examples.accepts_all 4
      (Examples.searcher_of Examples.full_pages) (Examples.query 250) Examples.start
    = (Some (result, None), σ') /\
    sent σ' = sent_now ++ sent Examples.start /\
    Z.of_nat (length sent_now) = (250 + 99) / 100 /\
    Z.of_nat (length (search.Items result)) = 250.
Proof.
  apply (Repositories_full_pages Examples.prefix Examples.in_order
           Examples.accepts_all (Examples.searcher_of Examples.full_pages)
           (Examples.query 250) Examples.start).
  - reflexivity.
  - apply ExampleFacts.query_parameters.
  - apply ExampleFacts.full_pages_full.
  - change (0 <= 250). lia.
  - change (Z.to_nat ((250 + 99) / 100) < 4)%nat. vm_compute. lia.
Defined.
(** ** Quoting twice *)

Module RequoteFacts.
Import Bytes strconv BytesFacts QuoteFacts.

Lemma SplitN2_length s c a b :
  SplitN2 s c = (a, Some b) ->
  String.length s = (String.length a + 1 + String.length b)%nat.
Proof.
  revert a. induction s as [|d s IH]; intros a H; [done|].
  simpl in H. destruct (Ascii.eqb d c).
  - simplify_eq. simpl. lia.
  - destruct (SplitN2 s c) as [a' b'] eqn:E. simplify_eq.
    simpl. rewrite (IH a' eq_refl). lia.
Qed.

Lemma ContainsAny_app_r a b cs :
  ContainsAny b cs = true -> ContainsAny (a +:+ b) cs = true.
Proof.
  intros H. induction a as [|c a IH]; [done|].
  rewrite app_cons. simpl. rewrite IH. by destruct (mem c cs).
Qed.

Lemma ContainsAny_Quote s : ContainsAny (Quote s) quoteChars = true.
Proof. reflexivity. Qed.

Lemma quoteKeyword_grows k :
  ContainsAny k quoteChars = true ->
  (String.length k + 2 <= String.length (quoteKeyword k))%nat /\
  ContainsAny (quoteKeyword k) quoteChars = true.
Proof.
  intros H. unfold quoteKeyword. rewrite H.
  destruct (ContainsByte k colon) eqn:Hc.
  - destruct (SplitN2_two _ _ Hc) as (a & b & Hs). rewrite Hs.
    apply SplitN2_length in Hs. split.
    + rewrite !length_app. change (String.length ":") with 1%nat.
      pose proof (Quote_length b). lia.
    + apply ContainsAny_app_r, ContainsAny_app_r, ContainsAny_Quote.
  - split; [apply Quote_length|apply ContainsAny_Quote].
Qed.

End RequoteFacts.

(** X5.  A keyword that holds whitespace or a double quote comes back
    from [quoteKeyword] at least two bytes longer and still holding a
    double quote, so quoting the result again changes it once more; the
    same goes for a qualifier value and [quoteQualifier].  Quoting is
    idempotent only on text that needs no quotes. *)
Theorem quoting_twice (k : string) :
  Bytes.ContainsAny k quoteChars = true ->
  (String.length k + 2 <= String.length (quoteKeyword k))%nat /\
  quoteKeyword (quoteKeyword k) <> quoteKeyword k /\
  quoteQualifier (quoteQualifier k) <> quoteQualifier k.
Proof.
  intros H. destruct (RequoteFacts.quoteKeyword_grows k H) as [Hlen Hq].
  split; [done|]. split.
  - intros E. destruct (RequoteFacts.quoteKeyword_grows _ Hq) as [Hlen' _].
    rewrite E in Hlen'. lia.
  - unfold quoteQualifier. rewrite H, RequoteFacts.ContainsAny_Quote.
    apply QuoteFacts.Quote_neq.
Qed.

Lemma quoting_twice_witness :
  quoteKeyword (quoteKeyword "foo bar") <> quoteKeyword "foo bar".
Proof.
  apply (quoting_twice "foo bar"). reflexivity.
Defined.

(** ** When printing an error fails *)


(** ** The qualifiers of a query string *)

Module ListSetFacts.
Import search.

Lemma fold_sources (l : list (string * Qualifier)) (m0 : gmap string string) k v :
  foldl (fun (m : gmap string string) kv =>
           let v := snd kv in
           if IsSet v then <[Key v := String_ v]> m else m) m0 l !! k = Some v ->
  m0 !! k = Some v \/
  exists name qual,
    (name, qual) ∈ l /\ IsSet qual = true /\ Key qual = k /\ String_ qual = v.
Proof.
  revert m0. induction l as [|[name qual] l IH]; intros m0 H; [by left|].
  simpl in H. apply IH in H as [H|(n & q & Hin & ?)].
  - destruct (IsSet qual) eqn:Hset; [|by left].
    destruct (decide (Key qual = k)) as [<-|Hne].
    + rewrite lookup_insert_eq in H. simplify_eq. right.
      exists name, qual. split; [apply elem_of_cons; by left|done].
    + rewrite lookup_insert_ne in H by done. by left.
  - right. exists n, q. split; [apply elem_of_cons; by right|done].
Qed.

Lemma fold_keeps (l : list (string * Qualifier)) (m0 : gmap string string) k :
  is_Some (m0 !! k) ->
  is_Some (foldl (fun (m : gmap string string) kv =>
                    let v := snd kv in
                    if IsSet v then <[Key v := String_ v]> m else m) m0 l !! k).
Proof.
  revert m0. induction l as [|[name qual] l IH]; intros m0 H; [done|].
  simpl. apply IH. destruct (IsSet qual); [|done].
  destruct (decide (Key qual = k)) as [<-|Hne].
  - rewrite lookup_insert_eq. by eexists.
  - by rewrite lookup_insert_ne.
Qed.

Lemma fold_covers (l : list (string * Qualifier)) (m0 : gmap string string) name qual :
  (name, qual) ∈ l -> IsSet qual = true ->
  is_Some (foldl (fun (m : gmap string string) kv =>
                    let v := snd kv in
                    if IsSet v then <[Key v := String_ v]> m else m) m0 l
           !! Key qual).
Proof.
  revert m0. induction l as [|[n q] l IH]; intros m0 Hin Hset.
  - by apply elem_of_nil in Hin.
  - simpl. apply elem_of_cons in Hin as [Heq|Hin].
    + simplify_eq. rewrite Hset. apply fold_keeps.
      rewrite lookup_insert_eq. by eexists.
    + by apply IH.
Qed.

End ListSetFacts.

Section Qualifiers.

Variable mapOrder : nat -> forall A : Type, list (string * A) -> list (string * A).
Hypothesis every_entry : visits_every_entry mapOrder.

Lemma range_map_entries {A} (m : gmap string A) σ k v :
  (k, v) ∈ (range_map mapOrder m σ).1 <-> m !! k = Some v.
Proof.
  unfold range_map. simpl. rewrite (every_entry (ranges σ) A (map_to_list m)).
  apply elem_of_map_to_list.
Qed.

(** X7.  Whatever order the runtime walks the map in, the map returned
    by [listSet] has an entry for the key of every qualifier that is set
    and for nothing else: a qualifier that is not set never reaches the
    query string.  Every value in it is the rendering of a set qualifier
    with that key, so when the set qualifiers agree wherever their keys
    coincide, each key is bound to the rendering of its qualifier. *)
Theorem listSet_is_the_set_qualifiers (q : gmap string search.Qualifier) (σ : State) :
  let m := (listSet mapOrder q σ).1 in
  (forall k v,
      m !! k = Some v ->
      exists name qual,
        q !! name = Some qual /\ search.IsSet qual = true /\
        search.Key qual = k /\ search.String_ qual = v) /\
  (forall name qual,
      q !! name = Some qual -> search.IsSet qual = true ->
      is_Some (m !! search.Key qual)) /\
  ((forall n1 q1 n2 q2,
       q !! n1 = Some q1 -> q !! n2 = Some q2 ->
       search.IsSet q1 = true -> search.IsSet q2 = true ->
       search.Key q1 = search.Key q2 -> search.String_ q1 = search.String_ q2) ->
   forall name qual,
     q !! name = Some qual -> search.IsSet qual = true ->
     m !! search.Key qual = Some (search.String_ qual)).
Proof.
  intros m.
  assert (forall k v,
             m !! k = Some v ->
             exists name qual,
               q !! name = Some qual /\ search.IsSet qual = true /\
               search.Key qual = k /\ search.String_ qual = v) as Hsrc.
  { intros k v H. unfold m, listSet in H. rewrite bind_run in H. simpl in H.
    apply ListSetFacts.fold_sources in H as [H|(name & qual & Hin & ?)]; [done|].
    exists name, qual. split; [|done].
    by apply (range_map_entries q σ). }
  assert (forall name qual,
             q !! name = Some qual -> search.IsSet qual = true ->
             is_Some (m !! search.Key qual)) as Hcov.
  { intros name qual Hq Hset. unfold m, listSet. rewrite bind_run. simpl.
    apply (ListSetFacts.fold_covers _ _ name); [|done].
    by apply (range_map_entries q σ). }
  split; [done|]. split; [done|].
  intros Hagree name qual Hq Hset.
  destruct (Hcov name qual Hq Hset) as [v Hv]. rewrite Hv. f_equal.
  destruct (Hsrc _ _ Hv) as (n' & q' & Hq' & Hset' & Hkey & <-).
  by apply (Hagree n' q' name qual).
Qed.

End Qualifiers.

Lemma in_order_every_entry : visits_every_entry Examples.in_order.
Proof. intros n A l. reflexivity. Qed.

Lemma listSet_is_the_set_qualifiers_witness :
  is_Some
    ((listSet Examples.in_order (search.Qualifiers (Examples.query 30))
        Examples.start).1 !! "stars").
Proof.
  apply (proj1 (proj2 (listSet_is_the_set_qualifiers Examples.in_order
                         in_order_every_entry
                         (search.Qualifiers (Examples.query 30)) Examples.start))
           "stars" (Examples.set_to "stars" ">100")).
  - vm_compute. reflexivity.
  - reflexivity.
Defined.
(** ** The layout of a query string *)

Lemma fold_qualifier_text (init : string) (l : list (string * string)) :
  foldl (fun q kv => q +:+ " " +:+ fst kv +:+ ":" +:+ quoteQualifier (snd kv)) init l
  = init +:+ concat_text (qualifier_text <$> l).
Proof.
  revert init. induction l as [|kv l IH]; intros init; simpl.
  - induction init as [|c s IHs]; [done|]. by rewrite BytesFacts.app_cons, <- IHs.
  - rewrite IH. by rewrite BytesFacts.app_assoc.
Qed.

Section Layout.

Variable mapOrder : nat -> forall A : Type, list (string * A) -> list (string * A).
Hypothesis every_entry : visits_every_entry mapOrder.

(** X8.  The query string is the quoted keywords joined by single
    spaces, followed, for every entry of the map of set qualifiers, by a
    space, the key, a colon and the value, quoted if it needs to be;
    the entries come in the order of the map iteration, which is some
    arrangement of them. *)
Theorem QueryString_layout (query : search.Query) (σ : State) :
  Slice.wf (heap σ) (search.Keywords query) ->
  exists entries,
    entries ≡ₚ map_to_list (listSet mapOrder (search.Qualifiers query) σ).1 /\
    (QueryString mapOrder query σ).1
    = Bytes.Join (quoteKeyword <$> Slice.elems (heap σ) (search.Keywords query)) " "
      +:+ concat_text (qualifier_text <$> entries).
Proof.
  intros Hwf. unfold QueryString. rewrite !bind_run.
  destruct (quoteKeywords_frame (search.Keywords query) σ) as (Hks & Hr & _).
  rewrite Hks.
  set (σ1 := (quoteKeywords (search.Keywords query) σ).2) in *.
  assert ((listSet mapOrder (search.Qualifiers query) (Slice.read (search.Keywords query) σ1).2).1
          = (listSet mapOrder (search.Qualifiers query) σ).1) as Hset.
  { unfold listSet. rewrite !bind_run. simpl. by rewrite Hr. }
  rewrite Hset.
  set (set := (listSet mapOrder (search.Qualifiers query) σ).1).
  eexists. split; [|simpl; rewrite fold_qualifier_text; f_equal; f_equal].
  - apply every_entry.
  - unfold σ1. by apply SliceFacts.quoteKeywords_elems.
Qed.

End Layout.

Lemma QueryString_layout_witness :
  exists entries,
    entries ≡ₚ map_to_list
                 (listSet Examples.in_order
                    (search.Qualifiers (Examples.query 30)) Examples.start).1 /\
    (QueryString Examples.in_order (Examples.query 30) Examples.start).1
    = Bytes.Join (quoteKeyword <$> Slice.elems (heap Examples.start) Examples.keywords) " "
      +:+ concat_text (qualifier_text <$> entries).
Proof.
  apply (QueryString_layout Examples.in_order in_order_every_entry
           (Examples.query 30) Examples.start).
  unfold Slice.wf. vm_compute. lia.
Defined.
(** ** What rendering and fetching leave alone *)

Module FrameFacts.
Import search.

Lemma untouched_refl ks h : untouched_outside ks h h.
Proof. by repeat split. Qed.

Lemma untouched_trans ks h1 h2 h3 :
  untouched_outside ks h1 h2 -> untouched_outside ks h2 h3 ->
  untouched_outside ks h1 h3.
Proof.
  intros (A1 & L1 & C1) (A2 & L2 & C2). repeat split.
  - intros a Ha. by rewrite A2, A1.
  - by rewrite L2.
  - intros j Hj. by rewrite C2, C1.
Qed.

Lemma quoted_at_outside off idx a j :
  Forall (fun i => (off + i)%nat <> j) idx ->
  quoted_at off idx a !! j = a !! j.
Proof.
  revert a. induction idx as [|i idx IH]; intros a H; [done|].
  apply Forall_cons in H as [Hi H]. simpl.
  change (quoted_at off idx
            (<[(off + i)%nat := quoteKeyword (default EmptyString (a !! (off + i)%nat))]> a)
          !! j = a !! j).
  rewrite IH by done. by apply list_lookup_insert_ne.
Qed.

Lemma for_range_other ks idx σ a :
  a <> s_arr ks ->
  heap (for_range idx
          (fun i => k ← Slice.index ks i; Slice.assign ks i (quoteKeyword k)) σ).2 !! a
  = heap σ !! a.
Proof.
  intros Ha. revert σ. induction idx as [|i idx IH]; intros σ; [done|].
  simpl. rewrite bind_run, IH, bind_run. simpl.
  by apply lookup_alter_ne.
Qed.

Lemma quoteKeywords_untouched ks σ :
  untouched_outside ks (heap σ) (heap (quoteKeywords ks σ).2).
Proof.
  unfold quoteKeywords. rewrite bind_run. simpl. repeat split.
  - intros a Ha. by apply for_range_other.
  - by rewrite SliceFacts.for_range_array, SliceFacts.length_quoted_at.
  - intros j Hj. rewrite SliceFacts.for_range_array.
    apply quoted_at_outside. apply Forall_forall. intros i Hi.
    apply elem_of_seq in Hi. lia.
Qed.

End FrameFacts.

Section Frame.

Variable RESTPrefix : string -> string.
Variable mapOrder : nat -> forall A : Type, list (string * A) -> list (string * A).
Variable parseError : string -> option string.

Lemma search_heap s query σ :
  heap (search_ RESTPrefix mapOrder parseError s query σ).2
  = heap (QueryString mapOrder query σ).2.
Proof. rewrite search_unfold. by case_match. Qed.

Lemma loop_untouched ks fuel s query t resp result σ out σ' :
  search.Keywords query = ks ->
  Repositories_loop RESTPrefix mapOrder parseError fuel s query t resp result σ
  = (Some out, σ') ->
  untouched_outside ks (heap σ) (heap σ').
Proof.
  revert query t resp result σ.
  induction fuel as [|fuel IH]; intros query t resp result σ Hks Hrun; [discriminate|].
  destruct (Z_le_gt_dec t 0) as [Hle|Hgt].
  { rewrite loop_done in Hrun by done. simplify_eq. apply FrameFacts.untouched_refl. }
  destruct (Z.eq_dec (nextPage resp) 0) as [Hz|Hnz].
  { rewrite loop_break in Hrun by done. simplify_eq. apply FrameFacts.untouched_refl. }
  rewrite loop_step in Hrun by (done || lia).
  set (query' := Trace.paging query (min t maxPerPage) (nextPage resp)) in *.
  assert (untouched_outside ks (heap σ)
            (heap (search_ RESTPrefix mapOrder parseError s query' σ).2)) as Hone.
  { rewrite search_heap, QueryString_heap. subst ks.
    apply FrameFacts.quoteKeywords_untouched. }
  destruct (search_ RESTPrefix mapOrder parseError s query' σ)
    as [[[resp' page] [err|]] σ1]; simpl in Hrun, Hone.
  - by simplify_eq.
  - apply IH in Hrun; [|done].
    by apply (FrameFacts.untouched_trans _ _ _ _ Hone).
Qed.

(** X9.  Rendering a query, building its web address and fetching its
    results write to the store only through the slice of keywords: every
    other array stays as it was, the array behind the keywords keeps its
    length, and its cells before and after the window of the slice keep
    their values.  None of the first two sends a request. *)
Theorem only_keywords_are_written (s : searcher) (query : search.Query) (σ : State) :
  let ks := search.Keywords query in
  (untouched_outside ks (heap σ) (heap (QueryString mapOrder query σ).2) /\
   sent (QueryString mapOrder query σ).2 = sent σ) /\
  (untouched_outside ks (heap σ) (heap (URL mapOrder s query σ).2) /\
   sent (URL mapOrder s query σ).2 = sent σ) /\
  (forall fuel out σ',
      Repositories RESTPrefix mapOrder parseError fuel s query σ = (Some out, σ') ->
      untouched_outside ks (heap σ) (heap σ')).
Proof.
  intros ks.
  assert (untouched_outside ks (heap σ) (heap (QueryString mapOrder query σ).2)) as Hq.
  { rewrite QueryString_heap. apply FrameFacts.quoteKeywords_untouched. }
  split; [split; [done|apply QueryString_sent]|].
  split.
  - unfold URL. rewrite bind_run. simpl. split; [done|apply QueryString_sent].
  - intros fuel out σ' Hrun. by apply (loop_untouched ks) in Hrun.
Qed.

End Frame.

Lemma only_keywords_are_written_witness :
  exists out σ',
    Repositories Examples.prefix Examples.in_order Examples.accepts_all 4
      (Examples.searcher_of Examples.single_page) (Examples.query 30) Examples.start
    = (Some out, σ') /\
    untouched_outside Examples.keywords (heap Examples.start) (heap σ').
Proof.
  eexists _, _. split; [vm_compute; reflexivity|].
  eapply (proj2 (proj2 (only_keywords_are_written Examples.prefix Examples.in_order
                          Examples.accepts_all
                          (Examples.searcher_of Examples.single_page)
                          (Examples.query 30) Examples.start)) 4%nat).
  vm_compute. reflexivity.
Defined.
(** ** Page numbers in decimal *)

Module PageNumberFacts.
Import Bytes strconv.

Lemma digits_of_uint_acc d acc :
  digits_value (Z.pos acc) (NilEmpty.string_of_uint d)
  = Z.pos (Pos.of_uint_acc d acc).
Proof.
  revert acc.
  induction d; intros acc;
    cbn [NilEmpty.string_of_uint digits_value Pos.of_uint_acc]; [done|..];
    match goal with
    | |- context [digit_val ?c] =>
        let v := eval vm_compute in (digit_val c) in change (digit_val c) with v
    end;
    rewrite <- IHd; f_equal; lia.
Qed.

Lemma digits_of_uint d :
  digits_value 0 (NilEmpty.string_of_uint d) = Z.of_N (Pos.of_uint d).
Proof.
  induction d; cbn [NilEmpty.string_of_uint digits_value Pos.of_uint Z.of_N];
    [done|exact IHd|..]; rewrite <- digits_of_uint_acc; reflexivity.
Qed.

Lemma all_digits_of_uint d : all_digits (NilEmpty.string_of_uint d) = true.
Proof. induction d; simpl; done. Qed.

Lemma Itoa_pos p : Itoa (Z.pos p) = NilEmpty.string_of_uint (Pos.to_uint p).
Proof.
  unfold Itoa. simpl. unfold NilZero.string_of_uint.
  pose proof (DecimalPos.Unsigned.to_uint_nonnil p).
  by destruct (Pos.to_uint p).
Qed.

(** [Atoi] reads back what [Itoa] wrote, for every number an [int] can
    hold that is not negative. *)
Lemma Atoi_Itoa n : 0 <= n <= max_int -> Atoi (Itoa n) = Some n.
Proof.
  intros [Hlo Hhi]. destruct n as [|p|p]; [done| |lia].
  rewrite Itoa_pos. unfold Atoi.
  rewrite all_digits_of_uint, digits_of_uint, DecimalPos.Unsigned.of_to.
  simpl Z.of_N.
  destruct (NilEmpty.string_of_uint (Pos.to_uint p)) eqn:E.
  - pose proof (DecimalPos.Unsigned.to_uint_nonnil p).
    by destruct (Pos.to_uint p).
  - destruct (Z.pos p <=? max_int) eqn:Hle; [done|]. apply Z.leb_gt in Hle. lia.
Qed.

Lemma Atoi_range s n : Atoi s = Some n -> 0 <= n <= max_int.
Proof.
  unfold Atoi. destruct s as [|c s]; [done|].
  destruct (all_digits (String c s)) eqn:Hd; [|done].
  destruct (digits_value 0 (String c s) <=? max_int) eqn:Hle; [|done].
  intros [= <-]. apply Z.leb_le in Hle. split; [|done].
  apply (ExampleFacts.digits_value_nonneg (String c s) 0 Hd). lia.
Qed.

Lemma Itoa_digits n : 0 <= n -> all_digits (Itoa n) = true.
Proof.
  intros H. destruct n as [|p|p]; [done| |lia].
  rewrite Itoa_pos. apply all_digits_of_uint.
Qed.

End PageNumberFacts.

Lemma nextPage_range resp : 0 <= nextPage resp <= strconv.max_int.
Proof.
  unfold nextPage. destruct resp as [r|]; [|unfold strconv.max_int; lia].
  generalize (regexp.linkRE_FindAll (http.Header_Get r "Link")). intros l.
  assert (forall page, 0 <= page <= strconv.max_int ->
            0 <= foldl (fun page m =>
                          if String.eqb (snd m) "next" then
                            match regexp.pageRE_Find (fst m) with
                            | Some digits =>
                                match strconv.Atoi digits with
                                | Some i => i
                                | None => page
                                end
                            | None => page
                            end
                          else page) page l <= strconv.max_int) as H.
  { induction l as [|m l IH]; intros page Hp; [done|].
    simpl. apply IH. destruct (String.eqb (snd m) "next"); [|done].
    destruct (regexp.pageRE_Find (fst m)) as [digits|]; [|done].
    destruct (strconv.Atoi digits) as [i|] eqn:E; [|done].
    by apply PageNumberFacts.Atoi_range in E. }
  apply H. unfold strconv.max_int. lia.
Qed.
(** ** Reading a Link header *)

Module LinkFacts.
Import Bytes regexp BytesFacts.

Lemma span_until x a rest :
  ContainsByte a x = false ->
  span (fun c => negb (Ascii.eqb c x)) (a +:+ String x rest) = (a, String x rest).
Proof.
  induction a as [|d a IH]; intros H.
  - simpl. by rewrite Ascii.eqb_refl.
  - simpl in H. rewrite app_cons. simpl.
    destruct (Ascii.eqb d x); [done|]. simpl. by rewrite IH.
Qed.

Lemma strip_prefix_app p s : strip_prefix p (p +:+ s) = Some s.
Proof.
  induction p as [|c p IH]; [done|].
  rewrite app_cons. simpl. by rewrite Ascii.eqb_refl.
Qed.

Lemma linkRE_from_skip a s : linkRE_from (String.length a) (a +:+ s) = linkRE_from 0 s.
Proof.
  induction a as [|c a IH]; [done|]. rewrite app_cons. simpl.
  destruct (a +:+ s) eqn:E; [|done].
  destruct a; [|done]. simpl in E. by subst.
Qed.

Lemma app_empty_r s : s +:+ EmptyString = s.
Proof. induction s as [|c s IH]; [done|]. by rewrite app_cons, IH. Qed.

Lemma entry_app u r rest :
  Link.entry (u, r) +:+ rest
  = String "<" (u +:+ String ">" (String ";" (String " " (String "r" (String "e"
      (String "l" (String "=" (String dquote (r +:+ String dquote rest))))))))).
Proof. unfold Link.entry. simpl fst. simpl snd. rewrite !app_assoc. reflexivity. Qed.

Lemma linkRE_at_entry u r rest :
  Link.well_formed (u, r) ->
  linkRE_at (Link.entry (u, r) +:+ rest)
  = Some (u, r, (String.length u + 1 + String.length r + 9)%nat).
Proof.
  intros (Hu & Hu' & Hr & Hr'). simpl in Hu, Hu', Hr, Hr'. rewrite entry_app.
  unfold linkRE_at. rewrite (span_until ">" u _ Hu').
  destruct u as [|c u]; [done|].
  cbn [strip_prefix Ascii.eqb Bool.eqb].
  cbn [span re_space mem Ascii.eqb Bool.eqb negb].
  unfold rel_eq.
  change (strip_prefix ("rel=" +:+ str1 dquote)
            (String "r" (String "e" (String "l" (String "="
               (String dquote (r +:+ String dquote rest)))))))
    with (Some (r +:+ String dquote rest)).
  cbv beta iota. rewrite (span_until dquote r _ Hr').
  by destruct r.
Qed.

Lemma linkRE_from_entry u r rest :
  Link.well_formed (u, r) ->
  linkRE_from 0 (Link.entry (u, r) +:+ rest) = (u, r) :: linkRE_from 0 rest.
Proof.
  intros Hwf. pose proof (linkRE_at_entry u r rest Hwf) as Hat.
  rewrite entry_app in Hat |- *.
  cbn [linkRE_from]. rewrite Hat. f_equal.
  set (a := u +:+ String ">" (String ";" (String " " (String "r" (String "e"
              (String "l" (String "=" (String dquote (r +:+ str1 dquote))))))))).
  replace (u +:+ _) with (a +:+ rest).
  - replace (String.length u + 1 + String.length r + 9 - 1)%nat
      with (String.length a); [apply linkRE_from_skip|].
    unfold a. rewrite length_app. simpl. rewrite length_app. simpl. lia.
  - unfold a. rewrite app_assoc, !app_cons, app_assoc. reflexivity.
Qed.

(** [linkRE] finds in a header exactly the links it was written from. *)
Lemma linkRE_FindAll_header links :
  Forall Link.well_formed links ->
  linkRE_FindAll (Link.header links) = links.
Proof.
  unfold linkRE_FindAll, Link.header.
  induction links as [|[u r] links IH]; intros H; [done|].
  apply Forall_cons in H as [Hl H].
  destruct links as [|l2 links].
  - change (Join (Link.entry <$> [(u, r)]) ", ") with (Link.entry (u, r)).
    rewrite <- (app_empty_r (Link.entry (u, r))).
    by rewrite linkRE_from_entry.
  - change (Join (Link.entry <$> (u, r) :: l2 :: links) ", ")
      with (Link.entry (u, r) +:+ ", " +:+ Join (Link.entry <$> l2 :: links) ", ").
    rewrite linkRE_from_entry by done. f_equal.
    etrans; [|by apply IH]. reflexivity.
Qed.

End LinkFacts.
(** ** Following the next link *)

Module NextFacts.
Import Bytes regexp BytesFacts strconv.

Lemma ContainsByte_app a b c :
  ContainsByte (a +:+ b) c = ContainsByte a c || ContainsByte b c.
Proof.
  induction a as [|d a IH]; [done|]. rewrite app_cons. simpl.
  by destruct (Ascii.eqb d c).
Qed.

Lemma digits_without s c :
  is_digit c = false -> all_digits s = true -> ContainsByte s c = false.
Proof.
  intros Hc. induction s as [|d s IH]; [done|]. simpl.
  intros [Hd Hs]%andb_prop. rewrite (IH Hs).
  destruct (Ascii.eqb_spec d c) as [->|]; [congruence|done].
Qed.

Lemma span_digits ds tail :
  all_digits ds = true -> Link.parameters tail ->
  span is_digit (ds +:+ tail) = (ds, tail).
Proof.
  intros Hd Ht. induction ds as [|d ds IH].
  - rewrite app_empty_l. by destruct Ht as [->|[rest ->]].
  - simpl in Hd. apply andb_prop in Hd as [Hd Hs].
    rewrite app_cons. simpl. by rewrite Hd, IH.
Qed.

Lemma pageRE_Find_first base rest :
  ContainsByte base "?" = false -> ContainsByte base "&" = false ->
  pageRE_Find (base +:+ "?page=" +:+ rest) = Some (fst (span is_digit rest)).
Proof.
  induction base as [|c base IH]; intros Hq Ha.
  - rewrite app_empty_l.
    change ("?page=" +:+ rest) with (String "?" ("page=" +:+ rest)).
    cbn [pageRE_Find]. cbn [Ascii.eqb Bool.eqb orb].
    by rewrite LinkFacts.strip_prefix_app.
  - simpl in Hq, Ha. rewrite app_cons. cbn [pageRE_Find].
    destruct (Ascii.eqb c "?"); [done|]. destruct (Ascii.eqb c "&"); [done|].
    simpl. by apply IH.
Qed.

Lemma pageRE_Find_page_url base p tail :
  ContainsByte base "?" = false -> ContainsByte base "&" = false ->
  0 <= p -> Link.parameters tail ->
  pageRE_Find (Link.page_url base p tail) = Some (Itoa p).
Proof.
  intros Hq Ha Hp Ht. unfold Link.page_url.
  rewrite pageRE_Find_first by done.
  by rewrite span_digits by (by apply PageNumberFacts.Itoa_digits || done).
Qed.

Lemma page_url_well_formed base p tail :
  ContainsByte base ">" = false -> ContainsByte tail ">" = false -> 0 <= p ->
  Link.well_formed (Link.page_url base p tail, "next").
Proof.
  intros Hb Ht Hp. unfold Link.well_formed, Link.page_url. simpl fst. simpl snd.
  split; [|split; [|split; [done|done]]].
  - destruct base; done.
  - rewrite !ContainsByte_app, Hb, Ht.
    rewrite (digits_without (Itoa p) ">") by (done || by apply PageNumberFacts.Itoa_digits).
    reflexivity.
Qed.

End NextFacts.

(** X10.  When the Link header of a response lists well-formed links,
    separated by a comma and a space, and the last of them with the
    relation [next] points to a target whose first parameter is
    [page=p], then [nextPage] is [p], whatever the other links are.
    When no link has the relation [next] (in particular when there is no
    Link header) it is 0.  It is never negative and never more than the
    largest [int]. *)
Theorem nextPage_reads_the_next_link (resp : http.Response) :
  (forall before after base p tail,
      Forall Link.well_formed before -> Forall Link.well_formed after ->
      Forall (fun l => snd l <> "next") after ->
      Bytes.ContainsByte base "?" = false -> Bytes.ContainsByte base "&" = false ->
      Bytes.ContainsByte base ">" = false -> Bytes.ContainsByte tail ">" = false ->
      Link.parameters tail ->
      0 <= p <= strconv.max_int ->
      http.Header_Get resp "Link"
      = Link.header (before ++ (Link.page_url base p tail, "next") :: after) ->
      nextPage (Some resp) = p) /\
  (forall links,
      Forall Link.well_formed links ->
      Forall (fun l => snd l <> "next") links ->
      http.Header_Get resp "Link" = Link.header links ->
      nextPage (Some resp) = 0) /\
  0 <= nextPage (Some resp) <= strconv.max_int.
Proof.
  assert (forall (l : list (string * string)) page,
             Forall (fun l => snd l <> "next") l ->
             foldl (fun page m =>
                      if String.eqb (snd m) "next" then
                        match regexp.pageRE_Find (fst m) with
                        | Some digits =>
                            match strconv.Atoi digits with
                            | Some i => i
                            | None => page
                            end
                        | None => page
                        end
                      else page) page l = page) as Hskip.
  { induction l as [|m l IH]; intros page H; [done|].
    apply Forall_cons in H as [Hm H]. simpl.
    apply String.eqb_neq in Hm. rewrite Hm. by apply IH. }
  split; [|split; [|apply nextPage_range]].
  - intros before after base p tail Hb Ha Hn Hq Hamp Hgt Htail Hpar Hp Hlink.
    unfold nextPage. rewrite Hlink, LinkFacts.linkRE_FindAll_header.
    + rewrite foldl_app. simpl.
      rewrite NextFacts.pageRE_Find_page_url by (done || lia).
      rewrite PageNumberFacts.Atoi_Itoa by done. by apply Hskip.
    + apply Forall_app. split; [done|]. constructor; [|done].
      apply NextFacts.page_url_well_formed; (done || lia).
  - intros links Hwf Hn Hlink.
    unfold nextPage. rewrite Hlink, LinkFacts.linkRE_FindAll_header by done.
    by apply Hskip.
Qed.

Lemma nextPage_reads_the_next_link_witness :
  nextPage
    (Some {| http.Reply_ := Examples.page_reply 3 (Some (Examples.next_link 2)) 3;
             http.Request_ := Examples.search_request "cli" |})
  = 2.
Proof.
  apply (proj1 (nextPage_reads_the_next_link
                  {| http.Reply_ := Examples.page_reply 3 (Some (Examples.next_link 2)) 3;
                     http.Request_ := Examples.search_request "cli" |})
           [] [] "https://api.github.com/search/repositories" 2 "&per_page=100").
  - constructor.
  - constructor.
  - constructor.
  - reflexivity.
  - reflexivity.
  - reflexivity.
  - reflexivity.
  - right. by eexists.
  - unfold strconv.max_int. lia.
  - vm_compute. reflexivity.
Defined.
(** ** The page number of every request *)

Lemma page_number_request path query q :
  page_apart query ->
  0 <= search.Page query <= strconv.max_int ->
  page_number (Trace.request_of path query q) = Some (search.Page query).
Proof.
  intros [Ho Hs] Hp.
  unfold page_number, Trace.request_of, with_parameters, url.Get, url.Set_.
  simpl.
  assert (forall m : gmap string string,
             m !! "page" = Some (Bytes.Itoa (search.Page query)) ->
             strconv.Atoi (default EmptyString (m !! "page"))
             = Some (search.Page query)) as Hm.
  { intros m ->. simpl. by apply PageNumberFacts.Atoi_Itoa. }
  apply Hm.
  repeat case_match; rewrite ?lookup_insert_ne by done;
    rewrite ?lookup_insert_ne by (by intros [=]); apply lookup_insert_eq.
Qed.

Section PageNumbers.

Variable RESTPrefix : string -> string.
Variable mapOrder : nat -> forall A : Type, list (string * A) -> list (string * A).
Variable parseError : string -> option string.

Lemma loop_numbered fuel s query t resp result σ out σ' :
  page_apart query ->
  resp = Trace.last_response (client s) (sent σ) ->
  numbered (client s) (sent σ) ->
  Repositories_loop RESTPrefix mapOrder parseError fuel s query t resp result σ
  = (Some out, σ') ->
  numbered (client s) (sent σ').
Proof.
  intros Hk. revert query t resp result σ Hk.
  induction fuel as [|fuel IH]; intros query t resp result σ Hk Hresp Hn Hrun;
    [discriminate|].
  destruct (Z_le_gt_dec t 0) as [Hle|Hgt].
  { rewrite loop_done in Hrun by done. by simplify_eq. }
  destruct (Z.eq_dec (nextPage resp) 0) as [Hz|Hnz].
  { rewrite loop_break in Hrun by done. by simplify_eq. }
  rewrite loop_step in Hrun by (done || lia).
  set (query' := Trace.paging query (min t maxPerPage) (nextPage resp)) in *.
  destruct (search_trace RESTPrefix mapOrder parseError s query' σ)
    as [(msg & Hr & Hs)|(q & Hr & Hs)]; simpl in Hr, Hs.
  - rewrite Hr in Hrun. simplify_eq. by rewrite Hs.
  - set (req := Trace.request_of _ query' q) in *.
    assert (numbered (client s) (req :: sent σ)) as Hn'.
    { simpl. split; [|done]. rewrite <- Hresp.
      apply (page_number_request _ query' q); [exact Hk|apply nextPage_range]. }
    destruct (Trace.receive req (client s (sent σ) req))
      as [[resp' page] [err|]] eqn:Hrecv; rewrite Hr in Hrun.
    + simplify_eq. by rewrite Hs.
    + eapply IH in Hrun; [done|exact Hk| |by rewrite Hs].
      rewrite Hs. simpl. by rewrite Hrecv.
Qed.

(** X11.  In a fetch on a fresh connection the first request asks for
    page 1 and every later request asks for the page that the response
    to the request before it named in its next link. *)
Theorem Repositories_page_numbers fuel s query σ out σ' :
  sent σ = [] ->
  page_apart query ->
  Repositories RESTPrefix mapOrder parseError fuel s query σ = (Some out, σ') ->
  numbered (client s) (sent σ') /\
  (forall first, last (sent σ') = Some first -> page_number first = Some 1).
Proof.
  intros Hs Hk Hrun. unfold Repositories in Hrun.
  apply loop_numbered in Hrun; [|done|by rewrite Hs|by rewrite Hs].
  split; [done|].
  intros first Hlast. clear Hs. induction (sent σ') as [|req l IH]; [done|].
  destruct Hrun as [Hreq Hrest]. destruct l as [|req' l].
  - simpl in Hlast. by simplify_eq.
  - apply IH; [done|]. by rewrite last_cons_cons in Hlast.
Qed.

End PageNumbers.

Lemma Repositories_page_numbers_witness :
  exists out σ',
    Repositories Examples.prefix Examples.in_order Examples.accepts_all 4
      (Examples.searcher_of Examples.full_pages) (Examples.query 250) Examples.start
    = (Some out, σ') /\
    numbered Examples.full_pages (sent σ').
Proof.
  eexists _, _. split; [vm_compute; reflexivity|].
  eapply (Repositories_page_numbers Examples.prefix Examples.in_order
            Examples.accepts_all 4 (Examples.searcher_of Examples.full_pages)
            (Examples.query 250) Examples.start).
  - reflexivity.
  - split; discriminate.
  - vm_compute. reflexivity.
Defined.
(** ** From field names to keys *)

Module DashFacts.
Import Bytes BytesFacts unicode.

Lemma capital_starts_segment c :
  IsLower c = true ->
  negb (IsLower (ToUpper c)) && negb (Ascii.eqb (ToUpper c) "-")
  && negb (IsNumber (ToUpper c)) = true /\
  ToLower (ToUpper c) = c.
Proof.
  destruct c as [[] [] [] [] [] [] [] []]; vm_compute; intros H;
    (discriminate H || (split; reflexivity)).
Qed.

Lemma inside_stays c :
  inside_segment c = true ->
  negb (IsLower c) && negb (Ascii.eqb c "-") && negb (IsNumber c) = false /\
  ToLower c = c.
Proof.
  destruct c as [[] [] [] [] [] [] [] []]; vm_compute; intros H;
    (discriminate H || (split; reflexivity)).
Qed.

Lemma loop_inside r rest output segment :
  all_inside r = true ->
  camelCaseToDash_loop (r +:+ rest) output segment
  = camelCaseToDash_loop rest output (segment +:+ r).
Proof.
  revert segment. induction r as [|c r IH]; intros segment H.
  - by rewrite app_empty_l, LinkFacts.app_empty_r.
  - simpl in H. apply andb_prop in H as [Hc Hr].
    destruct (inside_stays c Hc) as [Hb Hl].
    rewrite app_cons. cbn [camelCaseToDash_loop]. rewrite Hb, Hl, (IH _ Hr).
    rewrite app_assoc. reflexivity.
Qed.

Lemma loop_word w rest output segment :
  lower_word w = true ->
  camelCaseToDash_loop (capitalized w +:+ rest) output segment
  = camelCaseToDash_loop rest (addSegment output segment) w.
Proof.
  destruct w as [|c r]; [done|]. simpl. intros [Hc Hr]%andb_prop.
  destruct (capital_starts_segment c Hc) as [Hb Hl].
  rewrite Hb, Hl. by rewrite loop_inside.
Qed.

Lemma loop_words ws output w :
  lower_word w = true ->
  Forall (fun w => lower_word w = true) ws ->
  camelCaseToDash_loop (concat_text (capitalized <$> ws)) output w
  = addSegment output (Join (w :: ws) "-").
Proof.
  revert output w. induction ws as [|w' ws IH]; intros output w Hw H.
  - reflexivity.
  - apply Forall_cons in H as [Hw' H]. simpl concat_text.
    rewrite loop_word by done. rewrite IH by done.
    destruct w as [|c r]; [done|]. destruct w' as [|c' r']; [done|].
    change (Join (String c r :: String c' r' :: ws) "-")
      with (String c r +:+ "-" +:+ Join (String c' r' :: ws) "-").
    assert (exists d rest, Join (String c' r' :: ws) "-" = String d rest) as (d & tl & E).
    { destruct ws; simpl; eauto. }
    rewrite E. unfold addSegment.
    destruct output as [|o output].
    + rewrite app_empty_l. rewrite !app_cons. rewrite app_assoc. reflexivity.
    + rewrite !app_cons. rewrite !app_assoc. reflexivity.
Qed.

End DashFacts.

(** X12.  [camelCaseToDash] turns a field name made of capitalized
    words into the words in lower case joined by dashes (a run of
    capitals is split letter by letter, since every capital starts a
    word), and it returns unchanged every text made of lower-case
    letters, digits and dashes only. *)
Theorem camelCaseToDash_words :
  (forall ws,
      Forall (fun w => lower_word w = true) ws ->
      camelCaseToDash (concat_text (capitalized <$> ws)) = Bytes.Join ws "-") /\
  (forall s, all_inside s = true -> camelCaseToDash s = s).
Proof.
  split.
  - intros ws H. unfold camelCaseToDash. destruct ws as [|w ws]; [done|].
    apply Forall_cons in H as [Hw H]. simpl concat_text.
    rewrite DashFacts.loop_word by done.
    rewrite DashFacts.loop_words by done.
    change (addSegment EmptyString EmptyString) with EmptyString.
    by destruct (Bytes.Join (w :: ws) "-").
  - intros s H. unfold camelCaseToDash.
    rewrite <- (LinkFacts.app_empty_r s) at 1.
    rewrite DashFacts.loop_inside by done. simpl.
    by destruct s.
Qed.

Lemma camelCaseToDash_words_witness :
  camelCaseToDash "GoodFirstIssues" = "good-first-issues".
Proof.
  apply (proj1 camelCaseToDash_words ["good"; "first"; "issues"]).
  repeat constructor.
Defined.
(** ** Validated ranges need no quotes *)

Module RangeFacts.
Import Bytes regexp BytesFacts repos.

Lemma date_byte_plain c : date_byte c = true -> mem c quoteChars = false.
Proof.
  destruct c as [[] [] [] [] [] [] [] []]; vm_compute; intros H;
    (discriminate H || reflexivity).
Qed.

Lemma digit_is_date_byte c : is_digit c = true -> date_byte c = true.
Proof. unfold date_byte. by intros ->. Qed.

Lemma ContainsAny_app a b cs :
  ContainsAny (a +:+ b) cs = ContainsAny a cs || ContainsAny b cs.
Proof.
  induction a as [|c a IH]; [done|]. rewrite app_cons. cbn [ContainsAny].
  by destruct (mem c cs).
Qed.

Lemma span_plain cls s a rest :
  (forall c, cls c = true -> mem c quoteChars = false) ->
  span cls s = (a, rest) ->
  s = a +:+ rest /\ ContainsAny a quoteChars = false.
Proof.
  intros Hcls. revert a. induction s as [|c s IH]; intros a H.
  - simpl in H. by simplify_eq.
  - simpl in H. destruct (cls c) eqn:Hc.
    + destruct (span cls s) as [a' rest'] eqn:E. simplify_eq.
      destruct (IH a' eq_refl) as [-> Ha]. split; [done|].
      cbn [ContainsAny]. by rewrite (Hcls c Hc).
    + by simplify_eq.
Qed.

Lemma strip_prefix_eq p s s' : strip_prefix p s = Some s' -> s = p +:+ s'.
Proof.
  revert s. induction p as [|c p IH]; intros s H.
  - simpl in H. by simplify_eq.
  - destruct s as [|d s]; [done|]. simpl in H.
    destruct (Ascii.eqb_spec c d) as [->|]; [|done].
    rewrite app_cons. f_equal. by apply IH.
Qed.

Lemma range_body_plain cls s :
  (forall c, cls c = true -> mem c quoteChars = false) ->
  range_body cls s = true -> ContainsAny s quoteChars = false.
Proof.
  intros Hcls. unfold range_body.
  destruct (span cls s) as [a rest] eqn:E.
  destruct (span_plain cls s a rest Hcls E) as [-> Ha].
  destruct a as [|c a]; [done|].
  destruct rest as [|d rest].
  { intros _. by rewrite LinkFacts.app_empty_r. }
  destruct (strip_prefix ".." (String d rest)) as [upper|] eqn:Hp; [|done].
  apply strip_prefix_eq in Hp. rewrite Hp.
  intros H. rewrite ContainsAny_app, Ha.
  rewrite ContainsAny_app.
  apply orb_prop in H as [H|H].
  - apply String.eqb_eq in H. by subst.
  - destruct (span cls upper) as [b tl] eqn:E'.
    destruct (span_plain cls upper b tl Hcls E') as [-> Hb].
    destruct b; [done|]. destruct tl; [|done].
    by rewrite LinkFacts.app_empty_r, Hb.
Qed.

Lemma range_match_plain cls s :
  (forall c, cls c = true -> mem c quoteChars = false) ->
  range_match cls s = true -> ContainsAny s quoteChars = false.
Proof.
  intros Hcls H. unfold range_match in H. apply orb_prop in H as [H|H].
  { by apply range_body_plain in H. }
  apply existsb_exists in H as (op & Hop & H).
  destruct (strip_prefix op s) as [s'|] eqn:Hp; [|done].
  apply strip_prefix_eq in Hp. subst s.
  rewrite ContainsAny_app, (range_body_plain cls s' Hcls H).
  unfold operators in Hop. simpl in Hop.
  destruct Hop as [<-|[<-|[<-|[<-|[<-|[]]]]]]; reflexivity.
Qed.

End RangeFacts.

(** X13.  A value that the [repos] command accepts for one of its range
    flags, whether of numbers or of dates, holds no whitespace and no
    double quote: [quoteQualifier] returns it unchanged, so it reaches
    the query string as the user typed it. *)
Theorem validated_range_is_not_quoted (s : string) :
  repos.rangeRE_Match s = true \/ repos.dateTimeRangeRE_Match s = true ->
  quoteQualifier s = s.
Proof.
  intros H. unfold quoteQualifier.
  assert (Bytes.ContainsAny s quoteChars = false) as ->; [|done].
  destruct H as [H|H].
  - apply (RangeFacts.range_match_plain Bytes.is_digit); [|done].
    intros c Hc. by apply RangeFacts.date_byte_plain, RangeFacts.digit_is_date_byte.
  - apply (RangeFacts.range_match_plain repos.date_byte); [|done].
    apply RangeFacts.date_byte_plain.
Qed.

Lemma validated_range_is_not_quoted_witness :
  quoteQualifier ">=2021-01-01T00:00:00..*" = ">=2021-01-01T00:00:00..*".
Proof.
  apply validated_range_is_not_quoted. right. vm_compute. reflexivity.
Defined.
(** ** The web address of a query *)

Module EscapeFacts.
Import Bytes BytesFacts url.

Lemma escaped_byte_plain c :
  ContainsAny
    (if Ascii.eqb c space then "+"
     else if shouldEscape c
          then String "%" (String (upperhex (nat_of_ascii c / 16))
                             (str1 (upperhex (nat_of_ascii c mod 16))))
          else str1 c) quoteChars = false.
Proof. destruct c as [[] [] [] [] [] [] [] []]; vm_compute; reflexivity. Qed.

Lemma QueryEscape_plain s : ContainsAny (QueryEscape s) quoteChars = false.
Proof.
  induction s as [|c s IH]; [done|].
  cbn [QueryEscape]. by rewrite RangeFacts.ContainsAny_app, escaped_byte_plain, IH.
Qed.

Lemma Join_plain l sep :
  Forall (fun s => ContainsAny s quoteChars = false) l ->
  ContainsAny sep quoteChars = false ->
  ContainsAny (Join l sep) quoteChars = false.
Proof.
  intros Hl Hsep. induction Hl as [|s l Hs Hl IH]; [done|].
  destruct l as [|s' l]; [done|].
  change (Join (s :: s' :: l) sep) with (s +:+ sep +:+ Join (s' :: l) sep).
  by rewrite !RangeFacts.ContainsAny_app, Hs, Hsep, IH.
Qed.

Lemma Encode_plain v : ContainsAny (Encode v) quoteChars = false.
Proof.
  unfold Encode. apply Join_plain; [|done].
  apply Forall_fmap, Forall_forall. intros k _. simpl.
  by rewrite !RangeFacts.ContainsAny_app, !QueryEscape_plain.
Qed.

End EscapeFacts.

Section WebAddress.

Variable mapOrder : nat -> forall A : Type, list (string * A) -> list (string * A).

(** X14.  The web address of a query is [https://], the host,
    [/search?] and a query part that holds no whitespace and no double
    quote, whatever the keywords and qualifiers hold.  When neither an
    order nor a sort parameter is set, the query part is [q=] with the
    escaped query string, then [&type=] with the escaped kind. *)
Theorem URL_web_address (s : searcher) (query : search.Query) (σ : State) :
  (exists qs,
      (URL mapOrder s query σ).1 = "https://" +:+ host s +:+ "/search?" +:+ qs /\
      Bytes.ContainsAny qs quoteChars = false) /\
  (search.IsSet (search.Order query) = false ->
   search.IsSet (search.Sort query) = false ->
   (URL mapOrder s query σ).1
   = "https://" +:+ host s +:+ "/search?q="
     +:+ url.QueryEscape (QueryString mapOrder query σ).1
     +:+ "&type=" +:+ url.QueryEscape (search.Kind query)).
Proof.
  unfold URL. rewrite bind_run. cbn [fst snd ret mret M_ret].
  split.
  - eexists. split; [|apply EscapeFacts.Encode_plain].
    rewrite !BytesFacts.app_assoc. reflexivity.
  - intros Ho Hs. unfold with_parameters. rewrite Ho, Hs.
    set (q := (QueryString mapOrder query σ).1).
    unfold url.Encode.
    assert (url.sorted_keys (url.Set_ (url.Set_ ∅ "type" (search.Kind query)) "q" q)
            = ["q"; "type"]) as -> by (vm_compute; reflexivity).
    rewrite !BytesFacts.app_assoc. reflexivity.
Qed.

End WebAddress.

Lemma URL_web_address_witness :
  (URL Examples.in_order (Examples.searcher_of Examples.full_pages)
     {| search.Keywords := Examples.keywords; search.Kind := "repositories";
        search.Limit := 30; search.Order := Examples.unset "order";
        search.Page := 0; search.Qualifiers := ∅;
        search.Sort := Examples.unset "sort" |} Examples.start).1
  = "https://github.com/search?q=%22foo+bar%22+cli&type=repositories".
Proof.
  etrans.
  - apply (proj2 (URL_web_address Examples.in_order
                    (Examples.searcher_of Examples.full_pages) _ Examples.start));
      reflexivity.
  - vm_compute. reflexivity.
Defined.
(** ** How often the keywords are quoted *)

Section Requoting.

Variable RESTPrefix : string -> string.
Variable mapOrder : nat -> forall A : Type, list (string * A) -> list (string * A).
Variable parseError : string -> option string.
Hypothesis accepted : forall u, parseError u = None.

Lemma wf_untouched ks h h' :
  untouched_outside ks h h' -> Slice.wf h ks -> Slice.wf h' ks.
Proof. intros (_ & Hl & _). unfold Slice.wf. by rewrite Hl. Qed.

Lemma search_elems s query σ :
  Slice.wf (heap σ) (search.Keywords query) ->
  Slice.elems (heap (search_ RESTPrefix mapOrder parseError s query σ).2)
    (search.Keywords query)
  = quoteKeyword <$> Slice.elems (heap σ) (search.Keywords query).
Proof.
  intros Hwf. rewrite search_heap. by apply QueryString_rewrites_keywords.
Qed.

Lemma loop_requotes fuel s query t resp result σ out σ' :
  Slice.wf (heap σ) (search.Keywords query) ->
  Repositories_loop RESTPrefix mapOrder parseError fuel s query t resp result σ
  = (Some out, σ') ->
  exists sent_now,
    sent σ' = sent_now ++ sent σ /\
    Slice.elems (heap σ') (search.Keywords query)
    = Nat.iter (length sent_now) (fmap quoteKeyword)
        (Slice.elems (heap σ) (search.Keywords query)).
Proof.
  revert query t resp result σ.
  induction fuel as [|fuel IH]; intros query t resp result σ Hwf Hrun; [discriminate|].
  destruct (Z_le_gt_dec t 0) as [Hle|Hgt].
  { rewrite loop_done in Hrun by done. simplify_eq. by exists []. }
  destruct (Z.eq_dec (nextPage resp) 0) as [Hz|Hnz].
  { rewrite loop_break in Hrun by done. simplify_eq. by exists []. }
  rewrite loop_step in Hrun by (done || lia).
  set (query' := Trace.paging query (min t maxPerPage) (nextPage resp)) in *.
  pose proof (search_elems s query' σ Hwf) as Helems.
  assert (Slice.wf (heap (search_ RESTPrefix mapOrder parseError s query' σ).2)
            (search.Keywords query)) as Hwf'.
  { eapply wf_untouched; [|exact Hwf]. rewrite search_heap, QueryString_heap.
    apply FrameFacts.quoteKeywords_untouched. }
  destruct (search_sends RESTPrefix mapOrder parseError s query' σ accepted)
    as (q & Hr & Hs). simpl in Hr, Hs.
  set (req := Trace.request_of _ query' q) in *.
  destruct (search_ RESTPrefix mapOrder parseError s query' σ)
    as [[[resp' page] [err|]] σ1]; simpl in Hrun, Helems, Hwf', Hs.
  - simplify_eq. exists [req]. split; [done|]. simpl. by rewrite Helems.
  - apply IH in Hrun as (more & Hsent & Hmore); [|done].
    exists (more ++ [req]). rewrite Hsent, Hs. split; [by rewrite <- app_assoc|].
    change (search.Keywords query') with (search.Keywords query) in Hmore.
    rewrite Hmore, Helems, length_app. simpl.
    rewrite Nat.add_1_r. by rewrite Nat.iter_succ_r.
Qed.

(** X15.  When no request is refused before it is sent, a fetch that
    sent [n] requests has passed each of the caller's keywords [n]
    times through [quoteKeyword].  Keywords without whitespace and
    without a double quote are therefore left as they were; any other
    keyword is quoted once more with every page. *)
Theorem Repositories_quotes_once_per_request fuel s query σ out σ' :
  Slice.wf (heap σ) (search.Keywords query) ->
  Repositories RESTPrefix mapOrder parseError fuel s query σ = (Some out, σ') ->
  (exists sent_now,
      sent σ' = sent_now ++ sent σ /\
      Slice.elems (heap σ') (search.Keywords query)
      = Nat.iter (length sent_now) (fmap quoteKeyword)
          (Slice.elems (heap σ) (search.Keywords query))) /\
  (Forall (fun k => Bytes.ContainsAny k quoteChars = false)
     (Slice.elems (heap σ) (search.Keywords query)) ->
   Slice.elems (heap σ') (search.Keywords query)
   = Slice.elems (heap σ) (search.Keywords query)).
Proof.
  intros Hwf Hrun. unfold Repositories in Hrun.
  destruct (loop_requotes _ _ _ _ _ _ _ _ _ Hwf Hrun) as (l & Hs & He).
  split; [by exists l|].
  intros Hsafe. rewrite He. clear He Hs.
  induction (length l) as [|n IH]; [done|].
  simpl. rewrite IH. apply list_eq. intros i. rewrite list_lookup_fmap.
  destruct (Slice.elems (heap σ) (search.Keywords query) !! i) as [k|] eqn:E; [|done].
  simpl. f_equal. unfold quoteKeyword.
  by rewrite (proj1 (Forall_lookup _ _) Hsafe i k E).
Qed.

End Requoting.

Lemma full_pages_fetch_250 :
  exists out σ',
    Repositories Examples.prefix Examples.in_order Examples.accepts_all 4
      (Examples.searcher_of Examples.full_pages) (Examples.query 250) Examples.start
    = (Some out, σ').
Proof. eexists _, _. vm_compute. reflexivity. Qed.

Lemma Repositories_quotes_once_per_request_witness :
  exists out σ' sent_now,
    Repositories Examples.prefix Examples.in_order Examples.accepts_all 4
      (Examples.searcher_of Examples.full_pages) (Examples.query 250) Examples.start
    = (Some out, σ') /\
    sent σ' = sent_now ++ sent Examples.start /\
    Slice.elems (heap σ') Examples.keywords
    = Nat.iter (length sent_now) (fmap quoteKeyword)
        (Slice.elems (heap Examples.start) Examples.keywords).
Proof.
  destruct full_pages_fetch_250 as (out & σ' & Hrun).
  assert (Slice.wf (heap Examples.start) (search.Keywords (Examples.query 250))) as Hwf.
  { unfold Slice.wf. vm_compute. lia. }
  destruct (Repositories_quotes_once_per_request Examples.prefix Examples.in_order
              Examples.accepts_all (fun _ => eq_refl) 4
              (Examples.searcher_of Examples.full_pages) (Examples.query 250)
              Examples.start out σ' Hwf Hrun)
    as [(l & Hs & He) _].
  exists out, σ', l. split; [exact Hrun|]. split; [exact Hs|exact He].
Defined.
(** ** The command around the search *)

Module CommandFacts.
Import command.

Lemma present_log NewMarshal FilterJSON Execute displayResults opts result log0 :
  exists new,
    (present NewMarshal FilterJSON Execute displayResults opts result log0).2
    = new ++ log0 /\
    count is_PagerStarted new = count is_PagerStopped new /\
    count is_ProgressStarted new = 0%nat /\
    count is_ProgressStopped new = 0%nat.
Proof.
  unfold present.
  destruct (StartPager (IO opts)) as [err|];
    destruct (nonempty (JqExpression opts));
    destruct (nonempty (GoTemplate opts));
    destruct (NewMarshal (search.Items result)) as [e|j];
    simpl;
    first [ by eexists [_; _; _] | by eexists [_; _] | by eexists [_] | by eexists [] ].
Qed.

End CommandFacts.

Section CommandRuns.
Import command.

Variable NewSearcher : http.Client -> string -> Searcher.
Variable DisplayURL : string -> string.
Variable Marshal : list search.Repository -> failure + string.
Variable FilterJSON : string -> string -> option failure.
Variable Execute : string -> string -> option failure.
Variable displayResults : search.RepositoriesResult -> option failure.

(** X16.  Whenever [reposRun] returns, the progress indicator has been
    stopped as often as it was started, and so has the pager.  Results
    are written, by whichever of the three ways, only after a search
    that returned no error.  When the search returns an error, the
    command returns that error after stopping the progress indicator
    and does nothing else: whatever the result next to the error holds
    is dropped. *)
Theorem reposRun_writes_only_after_success (opts : ReposOptions) (w : World)
    (r : option failure) (w' : World) :
  reposRun NewSearcher DisplayURL Marshal FilterJSON Execute displayResults opts w
  = (Some r, w') ->
  exists new,
    log w' = new ++ log w /\
    count is_ProgressStarted new = count is_ProgressStopped new /\
    count is_PagerStarted new = count is_PagerStopped new /\
    (forall e, e ∈ new -> writes_results e = true ->
       exists host client result,
         Config opts = inr (inr host) /\ HttpClient opts = inr client /\
         WebMode opts = false /\
         Repositories_ (NewSearcher client host) (Query opts) (store w)
         = (Some (result, None), store w')) /\
    (forall host client result err σ,
        Config opts = inr (inr host) -> HttpClient opts = inr client ->
        WebMode opts = false ->
        Repositories_ (NewSearcher client host) (Query opts) (store w)
        = (Some (result, Some err), σ) ->
        r = Some (SearchFailed err) /\ store w' = σ /\
        new = [ProgressStopped; ProgressStarted]).
Proof.
  unfold reposRun.
  assert (forall k l1 l2, count k (l1 ++ l2) = (count k l1 + count k l2)%nat) as Happ.
  { intros k l1 l2. induction l1 as [|x l1 IH]; [done|]. simpl. rewrite IH. lia. }
  assert (forall new : list Event,
             Forall (fun e => writes_results e = false) new ->
             forall e, e ∈ new -> writes_results e = true ->
               exists host client result,
                 Config opts = inr (inr host) /\ HttpClient opts = inr client /\
                 WebMode opts = false /\
                 Repositories_ (NewSearcher client host) (Query opts) (store w)
                 = (Some (result, None), store w')) as Hquiet.
  { intros new Hall e He Hw. rewrite Forall_forall in Hall.
    rewrite (Hall e He) in Hw. discriminate. }
  destruct (Config opts) as [e|[e|host]] eqn:Hcfg.
  { intros [= <- <-]. exists [].
    split; [done|]. split; [done|]. split; [done|]. split; [by apply Hquiet|].
    intros; simplify_eq. }
  { intros [= <- <-]. exists [].
    split; [done|]. split; [done|]. split; [done|]. split; [by apply Hquiet|].
    intros; simplify_eq. }
  destruct (HttpClient opts) as [e|client] eqn:Hcl.
  { intros [= <- <-]. exists [].
    split; [done|]. split; [done|]. split; [done|]. split; [by apply Hquiet|].
    intros; simplify_eq. }
  destruct (WebMode opts) eqn:Hweb.
  - destruct (URL_ (NewSearcher client host) (Query opts) (store w)) as [url σ].
    intros [= <- <-]. simpl.
    destruct (IsStdoutTTY (IO opts)).
    + exists [Browsed url; WroteErrOut ("Opening " +:+ DisplayURL url
                                          +:+ " in your browser." +:+ Bytes.str1 Bytes.lf)].
      split; [done|]. split; [done|]. split; [done|].
      split; [apply Hquiet; by repeat constructor|]. intros; simplify_eq.
    + exists [Browsed url].
      split; [done|]. split; [done|]. split; [done|].
      split; [apply Hquiet; by repeat constructor|]. intros; simplify_eq.
  - destruct (Repositories_ (NewSearcher client host) (Query opts) (store w))
      as [[[result [err|]]|] σ] eqn:Hrun; [| |done].
    + intros [= <- <-]. simpl. exists [ProgressStopped; ProgressStarted].
      split; [done|]. split; [done|]. split; [done|].
      split; [apply Hquiet; by repeat constructor|].
      intros h c res err' σ' H1 H2 _ Hrun'. simplify_eq.
      rewrite Hrun in Hrun'. by simplify_eq.
    + destruct (present Marshal FilterJSON Execute displayResults opts result
                  (ProgressStopped :: ProgressStarted :: log w)) as [err lg] eqn:Hp.
      intros [= <- <-]. simpl.
      destruct (CommandFacts.present_log Marshal FilterJSON Execute displayResults
                  opts result (ProgressStopped :: ProgressStarted :: log w))
        as (new & Hnew & Hpager & Hps & Hpt).
      rewrite Hp in Hnew. simpl in Hnew.
      exists (new ++ [ProgressStopped; ProgressStarted]).
      split; [by rewrite Hnew, <- app_assoc|].
      rewrite !Happ, Hps, Hpt, Hpager.
      split; [done|]. split; [done|]. split.
      * intros e He Hw. by exists host, client, result.
      * intros h c res err' σ' H1 H2 _ Hrun'. simplify_eq.
        rewrite Hrun in Hrun'. simplify_eq.
Qed.

End CommandRuns.

Lemma URL_sent mapOrder s query σ : sent (URL mapOrder s query σ).2 = sent σ.
Proof. unfold URL. rewrite bind_run. simpl. apply QueryString_sent. Qed.

Section CommandBudget.
Import command.

Variable RESTPrefix : string -> string.
Variable mapOrder : nat -> forall A : Type, list (string * A) -> list (string * A).
Variable parseError : string -> option string.
Variable fuel : nat.
Variable DisplayURL : string -> string.
Variable Marshal : list search.Repository -> failure + string.
Variable FilterJSON : string -> string -> option failure.
Variable Execute : string -> string -> option failure.
Variable displayResults : search.RepositoriesResult -> option failure.
Variable MutuallyExclusive : string -> list bool -> option failure.

(** X17.  The command refuses a limit below 1 or above 1000 before it
    touches anything.  With the searcher of this package and an HTTP
    client whose server makes progress, a run of the command that
    returns has therefore sent at most 1000 requests; in web mode it
    sends none. *)
Theorem RunE_request_budget (opts : ReposOptions) (args : search.slice)
    (w : World) (r : option failure) (w' : World) :
  (forall c, HttpClient opts = inr c -> Server.makes_progress c) ->
  RunE (NewSearcher RESTPrefix mapOrder parseError fuel) DisplayURL Marshal
    FilterJSON Execute displayResults MutuallyExclusive None opts args w
  = (Some r, w') ->
  (exists sent_now,
      sent (store w') = sent_now ++ sent (store w) /\
      (length sent_now <= 1000)%nat /\
      (WebMode opts = true -> sent_now = [])) /\
  (search.Limit (Query opts) < 1 \/ 1000 < search.Limit (Query opts) ->
   is_Some r /\ w' = w).
Proof.
  intros Hprogress. unfold RunE. cbn [GoTemplate JqExpression WebMode Query search.Limit].
  assert (exists sent_now,
             sent (store w) = sent_now ++ sent (store w) /\
             (length sent_now <= 1000)%nat /\
             (WebMode opts = true -> sent_now = [])) as Hnone.
  { exists []. split; [done|]. split; [simpl; lia|done]. }
  destruct (MutuallyExclusive _ _) as [e|].
  { intros [= <- <-]. split; [done|]. intros _. split; [by eexists|done]. }
  destruct ((search.Limit (Query opts) <? 1) || (1000 <? search.Limit (Query opts)))
    eqn:Hlimit.
  { intros [= <- <-]. split; [done|]. intros _. split; [by eexists|done]. }
  apply orb_false_elim in Hlimit as [H1 H2].
  apply Z.ltb_ge in H1, H2.
  intros Hrun. split; [|lia].
  unfold reposRun in Hrun.
  cbn [Config HttpClient WebMode Query IO] in Hrun.
  destruct (Config opts) as [e|[e|host]]; [by simplify_eq..|].
  destruct (HttpClient opts) as [e|client] eqn:Hcl; [by simplify_eq|].
  destruct (WebMode opts) eqn:Hweb.
  - cbn [URL_ NewSearcher] in Hrun.
    match type of Hrun with
    | context [URL mapOrder ?s ?q ?σ] =>
        pose proof (URL_sent mapOrder s q σ) as Hsent;
        destruct (URL mapOrder s q σ) as [url σ1]
    end.
    simpl in Hsent. simplify_eq. simpl. rewrite Hsent.
    exists []. split; [done|]. split; [simpl; lia|done].
  - cbn [Repositories_ NewSearcher] in Hrun.
    match type of Hrun with
    | context [Repositories RESTPrefix mapOrder parseError fuel ?s ?q ?σ] =>
        destruct (Repositories RESTPrefix mapOrder parseError fuel s q σ)
          as [[out|] σ1] eqn:Hfetch
    end; [|done].
    unfold Repositories in Hfetch.
    apply loop_budget in Hfetch as (l & Hs & Hl); [|by apply Hprogress].
    rewrite decide_False in Hl by done. simpl in Hl.
    assert (sent (store w') = sent σ1) as ->.
    { destruct out as [result [err|]]; [by simplify_eq|].
      destruct (present _ _ _ _ _ _ _). by simplify_eq. }
    exists l. split; [done|]. split; [lia|done].
Qed.

End CommandBudget.

Lemma command_run_breaks :
  exists w',
    command.reposRun CommandExamples.searchers id CommandExamples.marshal
      CommandExamples.accept CommandExamples.accept CommandExamples.display
      (CommandExamples.options Examples.breaks_after_first 250) CommandExamples.world
    = (Some (Some (command.SearchFailed (TransportError "connection reset by peer"))), w').
Proof. eexists. vm_compute. reflexivity. Qed.

Lemma reposRun_writes_only_after_success_witness :
  exists w' new,
    command.reposRun CommandExamples.searchers id CommandExamples.marshal
      CommandExamples.accept CommandExamples.accept CommandExamples.display
      (CommandExamples.options Examples.breaks_after_first 250) CommandExamples.world
    = (Some (Some (command.SearchFailed (TransportError "connection reset by peer"))), w') /\
    command.log w' = new ++ command.log CommandExamples.world /\
    command.count command.is_ProgressStarted new
    = command.count command.is_ProgressStopped new.
Proof.
  destruct command_run_breaks as (w' & Hrun).
  destruct (reposRun_writes_only_after_success _ _ _ _ _ _ _ _ _ _ Hrun)
    as (new & Hlog & Hprogress & _).
  exists w', new. split; [exact Hrun|]. split; [exact Hlog|exact Hprogress].
Defined.

Lemma command_run_single_page :
  exists r w',
    command.RunE CommandExamples.searchers id CommandExamples.marshal
      CommandExamples.accept CommandExamples.accept CommandExamples.display
      CommandExamples.exclusive None
      (CommandExamples.options Examples.single_page 30) Examples.keywords
      CommandExamples.world
    = (Some r, w').
Proof. eexists _, _. vm_compute. reflexivity. Qed.

Lemma RunE_request_budget_witness :
  exists r w' sent_now,
    command.RunE CommandExamples.searchers id CommandExamples.marshal
      CommandExamples.accept CommandExamples.accept CommandExamples.display
      CommandExamples.exclusive None
      (CommandExamples.options Examples.single_page 30) Examples.keywords
      CommandExamples.world
    = (Some r, w') /\
    sent (command.store w') = sent_now ++ sent (command.store CommandExamples.world) /\
    (length sent_now <= 1000)%nat.
Proof.
  destruct command_run_single_page as (r & w' & Hrun).
  assert (forall c,
             command.HttpClient (CommandExamples.options Examples.single_page 30) = inr c ->
             Server.makes_progress c) as Hprogress.
  { intros c [= <-]. apply ExampleFacts.single_page_progress. }
  destruct (RunE_request_budget Examples.prefix Examples.in_order Examples.accepts_all 4
              id CommandExamples.marshal CommandExamples.accept CommandExamples.accept
              CommandExamples.display CommandExamples.exclusive
              (CommandExamples.options Examples.single_page 30) Examples.keywords
              CommandExamples.world r w' Hprogress Hrun)
    as [(l & Hs & Hl & _) _].
  exists r, w', l. split; [exact Hrun|]. split; [exact Hs|exact Hl].
Defined.
(** ** No request beyond the limit *)

Section Overshoot.

Variable RESTPrefix : string -> string.
Variable mapOrder : nat -> forall A : Type, list (string * A) -> list (string * A).
Variable parseError : string -> option string.

Lemma loop_wanted limit fuel s query t resp result σ out σ' :
  t = limit - Trace.retrieved (client s) (sent σ) ->
  wanted limit (client s) (sent σ) ->
  Repositories_loop RESTPrefix mapOrder parseError fuel s query t resp result σ
  = (Some out, σ') ->
  wanted limit (client s) (sent σ').
Proof.
  revert query t resp result σ.
  induction fuel as [|fuel IH]; intros query t resp result σ Ht Hw Hrun;
    [discriminate|].
  destruct (Z_le_gt_dec t 0) as [Hle|Hgt].
  { rewrite loop_done in Hrun by done. by simplify_eq. }
  destruct (Z.eq_dec (nextPage resp) 0) as [Hz|Hnz].
  { rewrite loop_break in Hrun by done. by simplify_eq. }
  rewrite loop_step in Hrun by (done || lia).
  set (query' := Trace.paging query (min t maxPerPage) (nextPage resp)) in *.
  destruct (search_trace RESTPrefix mapOrder parseError s query' σ)
    as [(msg & Hr & Hs)|(q & Hr & Hs)]; simpl in Hr, Hs.
  - rewrite Hr in Hrun. simplify_eq. by rewrite Hs.
  - set (req := Trace.request_of _ query' q) in *.
    assert (wanted limit (client s) (req :: sent σ)) as Hw'.
    { simpl. split; [lia|done]. }
    destruct (Trace.receive req (client s (sent σ) req))
      as [[resp' page] [err|]] eqn:Hrecv; rewrite Hr in Hrun.
    + simplify_eq. by rewrite Hs.
    + pose proof (TraceFacts.receive_page _ _ _ _ Hrecv) as Hpage.
      eapply IH in Hrun; [done| |by rewrite Hs].
      rewrite Hs, (TraceFacts.retrieved_page _ _ _ _ Hpage). lia.
Qed.

(** X18.  A fetch sends a request only while fewer items than the limit
    have been brought back, and every request asks for at least one
    item and at most 100.  So even when the server sends more than it
    was asked for, a successful fetch returns fewer than [limit] items
    more than its last page held. *)
Theorem Repositories_stops_at_the_limit fuel s query σ out σ' :
  sent σ = [] ->
  Trace.parameters_apart query ->
  Repositories RESTPrefix mapOrder parseError fuel s query σ = (Some out, σ') ->
  wanted (search.Limit query) (client s) (sent σ') /\
  (forall later req earlier,
      sent σ' = later ++ req :: earlier ->
      exists n, Trace.per_page req = Some n /\ 1 <= n <= 100) /\
  (forall req earlier page,
      out.2 = None -> sent σ' = req :: earlier ->
      Trace.page_of req (client s earlier req) = Some page ->
      Z.of_nat (length (search.Items out.1))
      < search.Limit query + Z.of_nat (length (search.Items page))).
Proof.
  intros Hs Hk Hrun.
  assert (wanted (search.Limit query) (client s) (sent σ')) as Hw.
  { unfold Repositories in Hrun.
    eapply (loop_wanted (search.Limit query)) in Hrun; [done| |by rewrite Hs].
    rewrite Hs. unfold Trace.retrieved. simpl. lia. }
  destruct (Repositories_consistent _ _ _ _ _ _ _ _ _ Hs Hrun) as ([Hi _] & _ & Hp).
  specialize (Hp Hk). split; [done|]. split.
  - intros later req earlier Hl. rewrite Hl in Hw, Hp. clear Hl.
    induction later as [|r later IH].
    + destruct Hw as [Hlt _]. destruct Hp as [Hpp _]. eexists. split; [exact Hpp|].
      apply min_page_size. lia.
    + destruct Hw as [_ Hw]. destruct Hp as [_ Hp]. by apply IH.
  - intros req earlier page _ Hl Hpage. rewrite Hi, Hl.
    rewrite (TraceFacts.merged_page _ _ _ _ Hpage), TraceFacts.items_of_snoc.
    rewrite length_app, Nat2Z.inj_add. rewrite Hl in Hw. destruct Hw as [Hlt _].
    unfold Trace.retrieved in Hlt. lia.
Qed.

End Overshoot.

Lemma oversized_fetch_1 :
  exists out σ',
    Repositories Examples.prefix Examples.in_order Examples.accepts_all 4
      (Examples.searcher_of Examples.oversized_page) (Examples.query 1) Examples.start
    = (Some out, σ').
Proof. eexists _, _. vm_compute. reflexivity. Qed.

Lemma Repositories_stops_at_the_limit_witness :
  exists out σ',
    Repositories Examples.prefix Examples.in_order Examples.accepts_all 4
      (Examples.searcher_of Examples.oversized_page) (Examples.query 1) Examples.start
    = (Some out, σ') /\
    wanted 1 Examples.oversized_page (sent σ').
Proof.
  destruct oversized_fetch_1 as (out & σ' & Hrun).
  exists out, σ'. split; [exact Hrun|].
  apply (Repositories_stops_at_the_limit Examples.prefix Examples.in_order
           Examples.accepts_all 4 (Examples.searcher_of Examples.oversized_page)
           (Examples.query 1) Examples.start out σ' eq_refl
           (ExampleFacts.query_parameters 1) Hrun).
Defined.
